(** * diff-spec: comparing two OpenAPI documents

    A shallow embedding of [api-tracking/diff-spec.py] and the properties
    of its extraction, diffing, categorisation and exit-status logic.

    Modelling conventions.
    - A document is what [json.load] returns: a [json] value.  Objects are
      association lists in document order (the order in which a Python
      [dict] iterates); [json.load] never yields a repeated key, which is
      the [NoDup] side condition of a few statements.  Numbers are their
      integer values (no tracked field is numeric); floats are left out.
      A float [NaN] is the one value that [!=] tells apart from itself;
      the statements that compare a record with itself assume of each
      compared field that it equals itself.
    - Python's run-time type errors are results: every operation that can
      raise returns [result], and the first exception raised is the one
      reported.
    - A string is the UTF-8 encoding of its text (a lone surrogate, which
      a parsed document may hold, as the three bytes of its code point):
      byte order is code point order, a character is a leading byte with
      the continuation bytes that follow it, and [upper]/[lower] act on
      ASCII letters, the only letters of the literals the script tests
      for.
    - The f-strings describing a field-level change are kept as the data
      they interpolate (type [change]); the report renders them.
    - [compare] is everything [main] does between the argument check and
      [print(report)]; [main] takes the write to standard output to
      succeed.  A report that the stream cannot encode makes [print] raise
      instead, so what is said about exceptions and about documents of the
      expected shape is said of [compare]. *)

From stdpp Require Import base option list gmap strings sorting pretty.
From Stdlib Require Import ZArith Ascii.

Local Open Scope Z_scope.

(** ** Exceptions and results *)

Inductive exn := AttributeError | TypeError | KeyError | IndexError | LoadError.

Inductive result (A : Type) :=
  | Ok (a : A)
  | Raise (e : exn).
Arguments Ok {A} a.
Arguments Raise {A} e.

#[global] Instance result_ret : MRet result := @Ok.
#[global] Instance result_bind : MBind result := λ A B f r,
  match r with Ok a => f a | Raise e => Raise e end.
#[global] Instance result_fmap : FMap result := λ A B f r,
  match r with Ok a => Ok (f a) | Raise e => Raise e end.

Definition is_ok {A} (r : result A) : bool :=
  match r with Ok _ => true | Raise _ => false end.

(** A loop whose body may raise: the accumulator is threaded left to right
    and the first exception ends the loop. *)
Fixpoint foldM {A B} (f : B → A → result B) (acc : B) (l : list A) : result B :=
  match l with
  | [] => Ok acc
  | x :: l' => acc' ← f acc x; foldM f acc' l'
  end.

(** ** Strings *)

Definition is_upper_ascii (c : ascii) : bool :=
  let n := N_of_ascii c in ((65 <=? n) && (n <=? 90))%N.
Definition is_lower_ascii (c : ascii) : bool :=
  let n := N_of_ascii c in ((97 <=? n) && (n <=? 122))%N.

Definition lower_ascii (c : ascii) : ascii :=
  if is_upper_ascii c then ascii_of_N (N_of_ascii c + 32) else c.
Definition upper_ascii (c : ascii) : ascii :=
  if is_lower_ascii c then ascii_of_N (N_of_ascii c - 32) else c.

Fixpoint string_map (f : ascii → ascii) (s : string) : string :=
  match s with
  | EmptyString => EmptyString
  | String c s' => String (f c) (string_map f s')
  end.

(** [s.lower()] and [s.upper()]. *)
Definition lower : string → string := string_map lower_ascii.
Definition upper : string → string := string_map upper_ascii.

(** [needle in hay] on strings. *)
Fixpoint contains (needle hay : string) : bool :=
  String.prefix needle hay ||
  match hay with
  | EmptyString => false
  | String _ hay' => contains needle hay'
  end.

(** ** The categorizer *)

Definition categorize_endpoint (method path : string) : string :=
  if contains "/v2-experimental/" path then "experimental"
  else if contains "/orgs/" path || contains "enterprise" (lower path) then "enterprise"
  else "standard".

(** The spec's wording of the three rules.  [occurs_in needle s] says that
    [needle] is a contiguous part of [s]; [occurs_in_nocase] that some
    contiguous part of [s] equals [needle] once case is ignored. *)
Definition occurs_in (needle s : string) : Prop :=
  ∃ pre post, s = pre +:+ needle +:+ post.
Definition occurs_in_nocase (needle s : string) : Prop :=
  ∃ pre mid post, s = pre +:+ mid +:+ post ∧ lower mid = lower needle.

Inductive spec_category (path : string) : string → Prop :=
  | spec_experimental :
      occurs_in "/v2-experimental/" path →
      spec_category path "experimental"
  | spec_enterprise :
      ¬ occurs_in "/v2-experimental/" path →
      occurs_in "/orgs/" path ∨ occurs_in_nocase "enterprise" path →
      spec_category path "enterprise"
  | spec_standard :
      ¬ occurs_in "/v2-experimental/" path →
      ¬ occurs_in "/orgs/" path →
      ¬ occurs_in_nocase "enterprise" path →
      spec_category path "standard".

(** ** Parsed documents *)

#[local] Unset Elimination Schemes.
Inductive json :=
  | JNull
  | JBool (b : bool)
  | JNum (n : Z)
  | JStr (s : string)
  | JArr (items : list json)
  | JObj (fields : list (string * json)).
#[local] Set Elimination Schemes.

(** [d[k]] on the entries of a dict, [None] when the key is absent. *)
Fixpoint dict_get (k : string) (fields : list (string * json)) : option json :=
  match fields with
  | [] => None
  | (k', v) :: fields' => if decide (k = k') then Some v else dict_get k fields'
  end.

(** [x.get(k, d)]: only a dict has the method. *)
Definition py_get (x : json) (k : string) (d : json) : result json :=
  match x with
  | JObj fields => Ok (default d (dict_get k fields))
  | _ => Raise AttributeError
  end.

(** [x.items()] and [x.keys()]. *)
Definition py_items (x : json) : result (list (string * json)) :=
  match x with
  | JObj fields => Ok fields
  | _ => Raise AttributeError
  end.
Definition py_keys (x : json) : result (list string) :=
  match x with
  | JObj fields => Ok fields.*1
  | _ => Raise AttributeError
  end.

(** A continuation byte of a UTF-8 sequence: [10xxxxxx]. *)
Definition is_continuation (c : ascii) : bool :=
  let n := N_of_ascii c in ((128 <=? n) && (n <? 192))%N.

(** The characters of a string, in order: each byte that is not a
    continuation byte starts a new character. *)
Fixpoint chars (s : string) : list string :=
  match s with
  | EmptyString => []
  | String c s' =>
      let continued :=
        match s' with
        | String d _ => is_continuation d
        | EmptyString => false
        end in
      match chars s' with
      | ch :: rest =>
          if continued then String c ch :: rest
          else String c EmptyString :: ch :: rest
      | [] => [String c EmptyString]
      end
  end.

(** Iterating [x] ([for p in x], [sorted(x)]): a list yields its items, a
    dict its keys, a string its characters; nothing else is iterable. *)
Definition py_iter (x : json) : result (list json) :=
  match x with
  | JArr items => Ok items
  | JObj fields => Ok (JStr <$> fields.*1)
  | JStr s => Ok (JStr <$> chars s)
  | _ => Raise TypeError
  end.

(** [a == b].  [bool] is a subtype of [int]; lists compare item by item;
    dicts compare as mappings, whatever the order of their entries. *)
Fixpoint py_eq (a b : json) : bool :=
  match a, b with
  | JNull, JNull => true
  | JBool x, JBool y => Z.b2z x =? Z.b2z y
  | JBool x, JNum n => Z.b2z x =? n
  | JNum n, JBool y => n =? Z.b2z y
  | JNum n, JNum m => n =? m
  | JStr s, JStr t => bool_decide (s = t)
  | JArr xs, JArr ys =>
      (fix go (xs ys : list json) : bool :=
         match xs, ys with
         | [], [] => true
         | x :: xs', y :: ys' => py_eq x y && go xs' ys'
         | _, _ => false
         end) xs ys
  | JObj xs, JObj ys =>
      forallb (λ '(k, v),
        existsb (λ '(k', w), bool_decide (k = k') && py_eq v w) ys) xs &&
      forallb (λ '(k', w),
        existsb (λ '(k, v), bool_decide (k = k') && py_eq v w) xs) ys
  | _, _ => false
  end.

(** [a != b]. *)
Definition py_ne (a b : json) : bool := negb (py_eq a b).

(** [a < b]: defined between two numbers, two strings and two lists (the
    first pair of unequal items decides, else the shorter list is smaller);
    any other pair raises [TypeError]. *)
Fixpoint py_lt (a b : json) : result bool :=
  match a, b with
  | JBool x, JBool y => Ok (Z.b2z x <? Z.b2z y)
  | JBool x, JNum n => Ok (Z.b2z x <? n)
  | JNum n, JBool y => Ok (n <? Z.b2z y)
  | JNum n, JNum m => Ok (n <? m)
  | JStr s, JStr t => Ok (String.ltb s t)
  | JArr xs, JArr ys =>
      (fix go (xs ys : list json) : result bool :=
         match xs, ys with
         | [], [] => Ok false
         | [], _ :: _ => Ok true
         | _ :: _, [] => Ok false
         | x :: xs', y :: ys' => if py_eq x y then go xs' ys' else py_lt x y
         end) xs ys
  | _, _ => Raise TypeError
  end.

(** ** Sorting *)

Section sorted.
Context {A : Type}.

(** Stable insertion: [x] goes in front of the first element that is not
    smaller than it. *)
Fixpoint insert_by (ltb : A → A → bool) (x : A) (l : list A) : list A :=
  match l with
  | [] => [x]
  | y :: l' => if ltb y x then y :: insert_by ltb x l' else x :: y :: l'
  end.

(** [sorted(l)] for elements that [<] always orders. *)
Definition py_sort (ltb : A → A → bool) (l : list A) : list A :=
  foldr (insert_by ltb) [] l.

Variable lt : A → A → result bool.

(** Every two elements at different positions can be ordered. *)
Fixpoint orderable (l : list A) : bool :=
  match l with
  | [] => true
  | x :: l' => forallb (λ y, is_ok (lt x y) && is_ok (lt y x)) l' && orderable l'
  end.

(** [sorted(l)] in general: a stable sort by [<]; [TypeError] as soon as
    two of the elements cannot be ordered (a list of at most one element
    is never compared). *)
Definition py_sorted (l : list A) : result (list A) :=
  if orderable l
  then Ok (py_sort (λ a b, match lt a b with Ok r => r | Raise _ => false end) l)
  else Raise TypeError.
End sorted.

(** [<] on the [(method, path)] tuples: the first components decide unless
    they are equal. *)
Definition tuple_ltb (a b : string * string) : bool :=
  if decide (a.1 = b.1) then String.ltb a.2 b.2 else String.ltb a.1 b.1.

(** ** The extractor *)

Definition HTTP_METHODS : gset string :=
  list_to_set ["get"; "post"; "put"; "patch"; "delete"].

Record param := Param {
  p_name : json;
  p_in : json;
  p_required : json;
}.

Record endpoint := Endpoint {
  operationId : json;
  summary : json;
  tags : json;
  deprecated : json;
  parameters : list param;
}.

Definition build_param (p : json) : result param :=
  name ← py_get p "name" JNull;
  loc ← py_get p "in" JNull;
  req ← py_get p "required" (JBool false);
  Ok (Param name loc req).

Definition build_endpoint (details : json) : result endpoint :=
  opid ← py_get details "operationId" (JStr "");
  summ ← py_get details "summary" (JStr "");
  tgs ← py_get details "tags" (JArr []);
  depr ← py_get details "deprecated" (JBool false);
  plist ← py_get details "parameters" (JArr []);
  ps ← py_iter plist;
  params ← mapM build_param ps;
  Ok (Endpoint opid summ tgs depr params).

Definition extract_methods (path : string)
    (endpoints : gmap (string * string) endpoint) (entry : string * json)
    : result (gmap (string * string) endpoint) :=
  let '(method, details) := entry in
  if decide (method ∈ HTTP_METHODS)
  then info ← build_endpoint details; Ok (<[(upper method, path) := info]> endpoints)
  else Ok endpoints.

Definition extract_path (endpoints : gmap (string * string) endpoint)
    (entry : string * json) : result (gmap (string * string) endpoint) :=
  let '(path, methods) := entry in
  ms ← py_items methods;
  foldM (extract_methods path) endpoints ms.

Definition extract_endpoints (spec : json)
    : result (gmap (string * string) endpoint) :=
  paths ← py_get spec "paths" (JObj []);
  ps ← py_items paths;
  foldM extract_path ∅ ps.

Record schema := Schema {
  properties : list string;
  required : list json;
}.

Definition extract_schema (schemas : gmap string schema) (entry : string * json)
    : result (gmap string schema) :=
  let '(name, sch) := entry in
  pobj ← py_get sch "properties" (JObj []);
  pkeys ← py_keys pobj;
  let props := py_sort String.ltb pkeys in
  robj ← py_get sch "required" (JArr []);
  ritems ← py_iter robj;
  req ← py_sorted py_lt ritems;
  Ok (<[name := Schema props req]> schemas).

Definition extract_schemas (spec : json) : result (gmap string schema) :=
  components ← py_get spec "components" (JObj []);
  schemas ← py_get components "schemas" (JObj []);
  ss ← py_items schemas;
  foldM extract_schema ∅ ss.

(** ** The differs *)

(** What a Python [set] can hold of a document: [None], numbers ([True] and
    [1] are one element) and strings. *)
Inductive pykey := KNone | KInt (n : Z) | KStr (s : string).

#[global] Instance pykey_eq_dec : EqDecision pykey.
Proof. solve_decision. Defined.

#[global] Instance pykey_countable : Countable pykey :=
  inj_countable'
    (λ k, match k with
          | KNone => inl ()
          | KInt n => inr (inl n)
          | KStr s => inr (inr s)
          end)
    (λ x, match x with
          | inl _ => KNone
          | inr (inl n) => KInt n
          | inr (inr s) => KStr s
          end)
    (λ k, match k with KNone | KInt _ | KStr _ => eq_refl end).

(** Hashing a value to put it in a set: lists and dicts are unhashable. *)
Definition py_hashable (x : json) : result pykey :=
  match x with
  | JNull => Ok KNone
  | JBool b => Ok (KInt (Z.b2z b))
  | JNum n => Ok (KInt n)
  | JStr s => Ok (KStr s)
  | JArr _ | JObj _ => Raise TypeError
  end.

Definition key_lt (a b : pykey) : result bool :=
  match a, b with
  | KInt n, KInt m => Ok (n <? m)
  | KStr s, KStr t => Ok (String.ltb s t)
  | _, _ => Raise TypeError
  end.

(** A field-level change description, as the data its text interpolates. *)
Inductive change :=
  | SummaryChanged (old new : json)
  | DeprecatedChanged (old new : json)
  | TagsChanged (old new : json)
  | NewParams (names : list pykey)
  | RemovedParams (names : list pykey)
  | NewProperties (names : list string)
  | RemovedProperties (names : list string)
  | RequiredChanged (old new : list json).

(** [{p["name"] for p in params}]. *)
Definition param_names (params : list param) : result (gset pykey) :=
  names ← mapM (λ p, py_hashable (p_name p)) params;
  Ok (list_to_set names).

(** [if names: diffs.append(f"...: {sorted(names)}")]: the description added
    for a non-empty set of parameter names. *)
Definition report_names (mk : list pykey → change) (names : gset pykey)
    : result (list change) :=
  if decide (names = ∅) then Ok []
  else sorted ← py_sorted key_lt (elements names); Ok [mk sorted].

(** The body of the loop of [diff_endpoints] for one shared key. *)
Definition endpoint_diffs (old new : endpoint) : result (list change) :=
  let d_summary :=
    if py_ne (summary old) (summary new)
    then [SummaryChanged (summary old) (summary new)] else [] in
  let d_deprecated :=
    if py_ne (deprecated old) (deprecated new)
    then [DeprecatedChanged (deprecated old) (deprecated new)] else [] in
  let d_tags :=
    if py_ne (tags old) (tags new)
    then [TagsChanged (tags old) (tags new)] else [] in
  old_params ← param_names (parameters old);
  new_params ← param_names (parameters new);
  let added_params := new_params ∖ old_params in
  let removed_params := old_params ∖ new_params in
  d_added ← report_names NewParams added_params;
  d_removed ← report_names RemovedParams removed_params;
  Ok (d_summary ++ d_deprecated ++ d_tags ++ d_added ++ d_removed).

(** [d[key]]. *)
Definition py_index {K V} `{Countable K} (d : gmap K V) (key : K) : result V :=
  match d !! key with
  | Some v => Ok v
  | None => Raise KeyError
  end.

Definition diff_endpoint_step (baseline current : gmap (string * string) endpoint)
    (changed : list (string * string * list change)) (key : string * string)
    : result (list (string * string * list change)) :=
  old ← py_index baseline key;
  new ← py_index current key;
  diffs ← endpoint_diffs old new;
  Ok (match diffs with [] => changed | _ :: _ => changed ++ [(key, diffs)] end).

Definition diff_endpoints (baseline current : gmap (string * string) endpoint)
    : result (list (string * string) * list (string * string) *
              list (string * string * list change)) :=
  let baseline_keys := dom baseline in
  let current_keys := dom current in
  let added := py_sort tuple_ltb (elements (current_keys ∖ baseline_keys)) in
  let removed := py_sort tuple_ltb (elements (baseline_keys ∖ current_keys)) in
  changed ← foldM (diff_endpoint_step baseline current) []
              (py_sort tuple_ltb (elements (baseline_keys ∩ current_keys)));
  Ok (added, removed, changed).

(** The body of the loop of [diff_schemas] for one shared name. *)
Definition schema_diffs (old new : schema) : list change :=
  let old_props : gset string := list_to_set (properties old) in
  let new_props : gset string := list_to_set (properties new) in
  let d_new :=
    if decide (new_props ∖ old_props = ∅) then []
    else [NewProperties (py_sort String.ltb (elements (new_props ∖ old_props)))] in
  let d_removed :=
    if decide (old_props ∖ new_props = ∅) then []
    else [RemovedProperties (py_sort String.ltb (elements (old_props ∖ new_props)))] in
  let d_required :=
    if py_ne (JArr (required old)) (JArr (required new))
    then [RequiredChanged (required old) (required new)] else [] in
  d_new ++ d_removed ++ d_required.

Definition diff_schema_step (baseline current : gmap string schema)
    (changed : list (string * list change)) (name : string)
    : result (list (string * list change)) :=
  old ← py_index baseline name;
  new ← py_index current name;
  let diffs := schema_diffs old new in
  Ok (match diffs with [] => changed | _ :: _ => changed ++ [(name, diffs)] end).

Definition diff_schemas (baseline current : gmap string schema)
    : result (list string * list string * list (string * list change)) :=
  let baseline_keys := dom baseline in
  let current_keys := dom current in
  let added := py_sort String.ltb (elements (current_keys ∖ baseline_keys)) in
  let removed := py_sort String.ltb (elements (baseline_keys ∖ current_keys)) in
  changed ← foldM (diff_schema_step baseline current) []
              (py_sort String.ltb (elements (baseline_keys ∩ current_keys)));
  Ok (added, removed, changed).

(** ** The reporter and the driver *)

Definition nl : string := String "010"%char EmptyString.

(** [cat.title()] on the three one-word lower-case labels. *)
Definition title (s : string) : string :=
  match s with
  | EmptyString => EmptyString
  | String c s' => String (upper_ascii c) s'
  end.

(** How a run ends: [sys.exit(code)], or a traceback for an exception that
    nothing catches. *)
Inductive termination :=
  | Exited (code : Z)
  | Uncaught (e : exn).

(** The status the operating system sees (the interpreter exits with 1
    after a traceback). *)
Definition exit_status (t : termination) : Z :=
  match t with
  | Exited code => code
  | Uncaught _ => 1
  end.

(** What a run leaves behind: the strings the script printed on each
    stream (the interpreter's own traceback text is not part of them) and
    how it ended. *)
Record run := Run {
  stdout : list string;
  stderr : list string;
  status : termination;
}.

Section report.
(** The text of [str(v)] for a document value and of a change
    description; the report only concatenates them. *)
Variable py_str : json → string.
Variable describe : change → string.

Definition table_header : list string :=
  ["| Method | Path | Summary |"; "|--------|------|---------|"].

Definition table_row (method path : string) (info : endpoint) : string :=
  "| " +:+ method +:+ " | `" +:+ path +:+ "` | " +:+ py_str (summary info) +:+ " |".

Definition category_section
    (rows : list (string * (string * string * endpoint))) (cat : string)
    : list string :=
  match filter (λ r, r.1 = cat) rows with
  | [] => []
  | group =>
      ["### " +:+ title cat +:+ nl] ++ table_header ++
      ((λ r, table_row r.2.1.1 r.2.1.2 r.2.2) <$> group) ++ [""]
  end.

Definition changed_section {K} (heading : K → string)
    (changed : list (K * list change)) : list string :=
  changed ≫= λ '(key, diffs),
    [heading key] ++ ((λ d, "- " +:+ describe d) <$> diffs) ++ [""].

Definition name_section (names : list string) : list string :=
  ((λ name, "- `" +:+ name +:+ "`") <$> names) ++ [""].

Definition format_report
    (endpoint_added endpoint_removed : list (string * string))
    (endpoint_changed : list (string * string * list change))
    (schema_added schema_removed : list string)
    (schema_changed : list (string * list change))
    (current_endpoints baseline_endpoints : gmap (string * string) endpoint)
    : result string :=
  let title_line := "# Miro API Spec Diff Report" +:+ nl in
  let total_changes :=
    (length endpoint_added + length endpoint_removed + length endpoint_changed +
     length schema_added + length schema_removed + length schema_changed)%nat in
  if decide (total_changes = 0%nat)
  then Ok (String.concat nl [title_line; "No changes detected." +:+ nl])
  else
    let count_line := "**" +:+ pretty total_changes +:+ " changes detected.**" +:+ nl in
    new_endpoints ←
      match endpoint_added with
      | [] => Ok []
      | _ :: _ =>
          rows ← mapM (λ '(method, path),
                    info ← py_index current_endpoints (method, path);
                    Ok (categorize_endpoint method path, (method, path, info)))
                  endpoint_added;
          Ok (["## New Endpoints (" +:+ pretty (length endpoint_added) +:+ ")" +:+ nl] ++
              (["standard"; "experimental"; "enterprise"] ≫= category_section rows))
      end;
    removed_endpoints ←
      match endpoint_removed with
      | [] => Ok []
      | _ :: _ =>
          rows ← mapM (λ '(method, path),
                    info ← py_index baseline_endpoints (method, path);
                    Ok (table_row method path info))
                  endpoint_removed;
          Ok (["## Removed Endpoints (" +:+ pretty (length endpoint_removed) +:+ ")" +:+ nl] ++
              table_header ++ rows ++ [""])
      end;
    let changed_endpoints :=
      match endpoint_changed with
      | [] => []
      | _ :: _ =>
          ["## Changed Endpoints (" +:+ pretty (length endpoint_changed) +:+ ")" +:+ nl] ++
          changed_section (λ '(method, path), "### `" +:+ method +:+ " " +:+ path +:+ "`" +:+ nl)
            endpoint_changed
      end in
    let new_schemas :=
      match schema_added with
      | [] => []
      | _ :: _ =>
          ["## New Schemas (" +:+ pretty (length schema_added) +:+ ")" +:+ nl] ++
          name_section schema_added
      end in
    let removed_schemas :=
      match schema_removed with
      | [] => []
      | _ :: _ =>
          ["## Removed Schemas (" +:+ pretty (length schema_removed) +:+ ")" +:+ nl] ++
          name_section schema_removed
      end in
    let changed_schemas :=
      match schema_changed with
      | [] => []
      | _ :: _ =>
          ["## Changed Schemas (" +:+ pretty (length schema_changed) +:+ ")" +:+ nl] ++
          changed_section (λ name, "### `" +:+ name +:+ "`" +:+ nl) schema_changed
      end in
    Ok (String.concat nl
          ([title_line; count_line] ++ new_endpoints ++ removed_endpoints ++
           changed_endpoints ++ new_schemas ++ removed_schemas ++ changed_schemas)).

(** The part of [main] after the argument check: what is printed and the
    code passed to [sys.exit]. *)
Definition compare (load : string → result json) (baseline_path current_path : string)
    : result (string * Z) :=
  baseline_spec ← load baseline_path;
  current_spec ← load current_path;
  baseline_endpoints ← extract_endpoints baseline_spec;
  current_endpoints ← extract_endpoints current_spec;
  baseline_schemas ← extract_schemas baseline_spec;
  current_schemas ← extract_schemas current_spec;
  '(ep_added, ep_removed, ep_changed) ← diff_endpoints baseline_endpoints current_endpoints;
  '(sc_added, sc_removed, sc_changed) ← diff_schemas baseline_schemas current_schemas;
  report ← format_report ep_added ep_removed ep_changed sc_added sc_removed sc_changed
             current_endpoints baseline_endpoints;
  let total :=
    (length ep_added + length ep_removed + length ep_changed +
     length sc_added + length sc_removed + length sc_changed)%nat in
  Ok (report, if decide (0 < total)%nat then 1 else 0).

(** [main()], given [sys.argv] and what opening and parsing a file
    yields. *)
Definition main (argv : list string) (load : string → result json) : run :=
  match argv with
  | [_; baseline_path; current_path] =>
      match compare load baseline_path current_path with
      | Ok (report, code) => Run [report] [] (Exited code)
      | Raise e => Run [] [] (Uncaught e)
      end
  | prog :: _ =>
      Run [] ["Usage: " +:+ prog +:+ " <baseline.json> <current.json>"] (Exited 1)
  | [] => Run [] [] (Uncaught IndexError)
  end.
End report.

(** ** Where an extracted record comes from *)

(** The operations of one path item.  [from_item path ms key info] says
    that [info] is the record built from an entry of [ms] whose key is a
    recognized method, and [key] is that method in upper case with [path]. *)
Definition from_item (path : string) (ms : list (string * json))
    (key : string * string) (info : endpoint) : Prop :=
  ∃ m details, (m, details) ∈ ms ∧ m ∈ HTTP_METHODS ∧
    key = (upper m, path) ∧ build_endpoint details = Ok info.

Definition not_from_item (path : string) (ms : list (string * json))
    (key : string * string) : Prop :=
  ∀ m, m ∈ ms.*1 → m ∈ HTTP_METHODS → key ≠ (upper m, path).

(** The same for a whole [paths] section. *)
Definition from_paths (paths : list (string * json))
    (key : string * string) (info : endpoint) : Prop :=
  ∃ path ms, (path, JObj ms) ∈ paths ∧ from_item path ms key info.

Definition not_from_paths (paths : list (string * json))
    (key : string * string) : Prop :=
  ∀ path ms, (path, JObj ms) ∈ paths → not_from_item path ms key.

(** ** Identical on the tracked fields *)

(** Two endpoint records that no check of the differ tells apart. *)
Definition identical_endpoints (old new : endpoint) : Prop :=
  py_eq (summary old) (summary new) = true ∧
  py_eq (deprecated old) (deprecated new) = true ∧
  py_eq (tags old) (tags new) = true ∧
  param_names (parameters old) = param_names (parameters new).

Definition identical_schemas (old new : schema) : Prop :=
  (list_to_set (properties old) : gset string) = list_to_set (properties new) ∧
  py_eq (JArr (required old)) (JArr (required new)) = true.

(** Two mappings with the same keys and, under each key, records that are
    identical on the tracked fields. *)
Definition identical_mappings {K V} `{Countable K} (same : V → V → Prop)
    (baseline current : gmap K V) : Prop :=
  dom baseline = dom current ∧
  ∀ key old new, baseline !! key = Some old → current !! key = Some new → same old new.

(** ** Where an extracted schema record comes from *)

(** [schema_of sch rec]: the record that one iteration of the loop of
    [extract_schemas] builds from the schema [sch]. *)
Definition schema_of (sch : json) (rec : schema) : Prop :=
  ∃ pobj pkeys robj ritems,
    py_get sch "properties" (JObj []) = Ok pobj ∧
    py_keys pobj = Ok pkeys ∧
    properties rec = py_sort String.ltb pkeys ∧
    py_get sch "required" (JArr []) = Ok robj ∧
    py_iter robj = Ok ritems ∧
    py_sorted py_lt ritems = Ok (required rec).

(** ** Documents of the expected shape *)

(** A parameter that is a mapping with a string [name]. *)
Definition parameter_shape (p : json) : Prop :=
  ∃ fields s, p = JObj fields ∧ dict_get "name" fields = Some (JStr s).

(** An operation that is a mapping whose [parameters], when present, is a
    list of such parameters. *)
Definition operation_shape (details : json) : Prop :=
  ∃ fields, details = JObj fields ∧
    (dict_get "parameters" fields = None ∨
     ∃ items, dict_get "parameters" fields = Some (JArr items) ∧
       Forall parameter_shape items).

(** A path item that is a mapping whose entries under the recognized
    method names are such operations. *)
Definition path_item_shape (item : json) : Prop :=
  ∃ ms, item = JObj ms ∧
    ∀ m details, (m, details) ∈ ms → m ∈ HTTP_METHODS → operation_shape details.

(** A schema that is a mapping whose [properties], when present, is a
    mapping and whose [required], when present, is a list of strings. *)
Definition schema_shape (sch : json) : Prop :=
  ∃ fields, sch = JObj fields ∧
    (dict_get "properties" fields = None ∨
     ∃ pf, dict_get "properties" fields = Some (JObj pf)) ∧
    (dict_get "required" fields = None ∨
     ∃ names : list string, dict_get "required" fields = Some (JArr (JStr <$> names))).

Definition document_shape (spec : json) : Prop :=
  ∃ fields, spec = JObj fields ∧
    (dict_get "paths" fields = None ∨
     ∃ ps, dict_get "paths" fields = Some (JObj ps) ∧
       ∀ path item, (path, item) ∈ ps → path_item_shape item) ∧
    (dict_get "components" fields = None ∨
     ∃ cf, dict_get "components" fields = Some (JObj cf) ∧
       (dict_get "schemas" cf = None ∨
        ∃ ss, dict_get "schemas" cf = Some (JObj ss) ∧
          ∀ name sch, (name, sch) ∈ ss → schema_shape sch)).

(** ** Sample documents *)

Definition boards_doc (summ : string) : json :=
  JObj [("paths", JObj [("/boards", JObj [("get", JObj [("summary", JStr summ)])])])].

(** A file system with a baseline and a current document that differ in
    one summary. *)
Definition sample_load (file : string) : result json :=
  if decide (file = "baseline.json") then Ok (boards_doc "List boards")
  else if decide (file = "current.json") then Ok (boards_doc "List all boards")
  else Raise LoadError.

(** The operation key is spelt in upper case. *)
Definition uppercase_method_doc : json :=
  JObj [("paths", JObj [("/boards", JObj [("GET", JObj [("summary", JStr "List boards")])])])].

Definition board_schema_doc (req : list string) : json :=
  JObj [("components", JObj [("schemas", JObj [("Board", JObj [("required", JArr (JStr <$> req))])])])].

(** Two query parameters, and an operation record with a given summary
    and parameter list. *)
Definition cursor_param : param := Param (JStr "cursor") (JStr "query") (JBool false).
Definition limit_param : param := Param (JStr "limit") (JStr "query") (JBool false).
Definition offset_param : param := Param (JStr "offset") (JStr "query") (JBool true).

Definition paged_info (summ : string) (ps : list param) : endpoint :=
  Endpoint (JStr "listBoards") (JStr summ) (JArr [JStr "boards"]) (JBool false) ps.
Definition paged_endpoints (summ : string) (ps : list param)
    : gmap (string * string) endpoint :=
  {[ ("GET", "/boards") := paged_info summ ps ]}.

(** Two releases of an API: some operations and schemas are shared, some
    exist in one release only. *)
Definition release1_endpoints : gmap (string * string) endpoint :=
  list_to_map
    [(("POST", "/boards"), paged_info "Create board" []);
     (("GET", "/boards"), paged_info "List boards" [cursor_param]);
     (("GET", "/items"), paged_info "List items" [cursor_param; limit_param]);
     (("DELETE", "/items/{id}"), paged_info "Delete item" []);
     (("GET", "/orgs/{id}"), paged_info "Get organization" [])].
Definition release2_endpoints : gmap (string * string) endpoint :=
  list_to_map
    [(("PUT", "/tags/{id}"), paged_info "Update tag" []);
     (("POST", "/boards"), paged_info "Create a board" []);
     (("GET", "/tags"), paged_info "List tags" [limit_param]);
     (("GET", "/boards"), paged_info "List boards" [offset_param; cursor_param; limit_param]);
     (("GET", "/orgs/{id}"), paged_info "Get organization" [])].

Definition release1_schemas : gmap string schema :=
  list_to_map
    [("Item", Schema ["id"; "title"] [JStr "id"]);
     ("Board", Schema ["id"; "name"] [JStr "id"]);
     ("Widget", Schema ["id"] []);
     ("Frame", Schema ["id"] []);
     ("Org", Schema ["id"] [JStr "id"])].
Definition release2_schemas : gmap string schema :=
  list_to_map
    [("Tag", Schema ["id"] []);
     ("Item", Schema ["id"; "title"] [JStr "id"; JStr "title"]);
     ("Board", Schema ["id"; "name"; "owner"] [JStr "id"]);
     ("Connector", Schema ["id"] []);
     ("Org", Schema ["id"] [JStr "id"])].

(** A current document whose operation gained an unnamed and a named
    parameter. *)
Definition unnamed_parameter_doc : json :=
  JObj [("paths", JObj [("/boards", JObj [("get", JObj
    [("summary", JStr "List boards");
     ("parameters", JArr [JObj [("in", JStr "query")];
                          JObj [("name", JStr "limit")]])])])])].

Definition unnamed_load (file : string) : result json :=
  if decide (file = "baseline.json") then Ok (boards_doc "List boards")
  else if decide (file = "current.json") then Ok unnamed_parameter_doc
  else Raise LoadError.

(** A document with one operation, given its summary and the names of
    its parameters, and one schema, given its [required] list. *)
Definition release_doc (summ : string) (params req : list string) : json :=
  JObj [("openapi", JStr "3.0.1");
        ("paths", JObj [("/boards", JObj
           [("parameters", JArr []);
            ("get", JObj
               [("summary", JStr summ);
                ("parameters",
                 JArr ((λ n, JObj [("name", JStr n); ("in", JStr "query")]) <$> params))])])]);
        ("components", JObj [("schemas", JObj [("Board", JObj
           [("properties", JObj [("id", JObj []); ("name", JObj [])]);
            ("required", JArr (JStr <$> req))])])])].

Definition release_load (file : string) : result json :=
  if decide (file = "baseline.json") then Ok (release_doc "List boards" ["cursor"] ["id"])
  else if decide (file = "current.json")
  then Ok (release_doc "List all boards" ["limit"; "cursor"] ["name"; "id"])
  else Raise LoadError.

(** What extraction yields on [boards_doc summ]. *)
Definition boards_info (summ : string) : endpoint :=
  Endpoint (JStr "") (JStr summ) (JArr []) (JBool false) [].
Definition boards_endpoints (summ : string) : gmap (string * string) endpoint :=
  {[ ("GET", "/boards") := boards_info summ ]}.

(** * Properties *)

(** *** Facts about strings *)

Lemma append_cons c (s t : string) : String c s +:+ t = String c (s +:+ t).
Proof. reflexivity. Qed.

Lemma append_nil (t : string) : "" +:+ t = t.
Proof. reflexivity. Qed.

Lemma prefix_app (n h : string) :
  String.prefix n h = true ↔ ∃ post, h = n +:+ post.
Proof.
  revert h. induction n as [|c n IH]; intros h; simpl.
  - destruct h; simpl; split; eauto.
  - destruct h as [|d h]; simpl.
    + split; [done|]. intros [post ?]; discriminate.
    + destruct (ascii_dec c d) as [->|Hne].
      * rewrite IH. split; intros [post Hp]; exists post;
          rewrite append_cons in *; congruence.
      * split; [done|]. intros [post Hp]. rewrite append_cons in Hp. congruence.
Qed.

Lemma contains_occurs_in (n h : string) :
  contains n h = true ↔ occurs_in n h.
Proof.
  induction h as [|d h IH].
  - change (contains n "") with (String.prefix n "" || false).
    rewrite orb_false_r, prefix_app. split.
    + intros [post ->]. by exists "", post.
    + intros ([|c pre] & post & Hp); [eauto|discriminate].
  - change (contains n (String d h))
      with (String.prefix n (String d h) || contains n h).
    rewrite orb_true_iff, prefix_app, IH. split.
    + intros [[post ->]|(pre & post & ->)].
      * by exists "", post.
      * by exists (String d pre), post.
    + intros ([|c pre] & post & Hp).
      * left. eauto.
      * right. rewrite append_cons in Hp. injection Hp as -> ->. by exists pre, post.
Qed.

Lemma string_map_app f (s t : string) :
  string_map f (s +:+ t) = string_map f s +:+ string_map f t.
Proof.
  induction s as [|c s IH]; [done|].
  rewrite append_cons. simpl. by rewrite IH, append_cons.
Qed.

Lemma string_map_split f (s a b : string) :
  string_map f s = a +:+ b →
  ∃ s1 s2, s = s1 +:+ s2 ∧ string_map f s1 = a ∧ string_map f s2 = b.
Proof.
  revert a. induction s as [|c s IH]; intros [|d a] H;
    rewrite ?append_cons, ?append_nil in H; simpl in H.
  - exists "", "". by rewrite <- H.
  - discriminate.
  - exists "", (String c s). by rewrite <- H.
  - injection H as <- H. destruct (IH _ H) as (s1 & s2 & -> & <- & <-).
    by exists (String c s1), s2.
Qed.

Lemma contains_lower_nocase (n h : string) :
  lower n = n →
  contains n (lower h) = true ↔ occurs_in_nocase n h.
Proof.
  intros Hn. rewrite contains_occurs_in. unfold occurs_in, occurs_in_nocase, lower.
  split.
  - intros (pre & post & H).
    apply string_map_split in H as (h1 & h23 & -> & <- & H).
    apply string_map_split in H as (h2 & h3 & -> & H2 & <-).
    exists h1, h2, h3. split; [done|]. unfold lower in Hn. congruence.
  - intros (pre & mid & post & -> & H).
    exists (string_map lower_ascii pre), (string_map lower_ascii post).
    rewrite !string_map_app. unfold lower in Hn. congruence.
Qed.

(** *** Facts about results and loops *)

Lemma bind_Ok {A B} (f : A → result B) (r : result A) (b : B) :
  r ≫= f = Ok b ↔ ∃ a, r = Ok a ∧ f a = Ok b.
Proof.
  destruct r as [a|e]; simpl; split.
  - eauto.
  - by intros (a' & [= <-] & ?).
  - done.
  - by intros (a' & ? & _).
Qed.

(** Closes an equation between closed terms by evaluating its left side. *)
Ltac vm_refl :=
  lazymatch goal with |- _ = ?y => vm_cast_no_check (@eq_refl _ y) end.

(** Splits an equation saying that a sequence of bound steps returned. *)
Ltac inv_bind H :=
  repeat match type of H with
  | _ ≫= _ = Ok _ =>
      let a := fresh "a" in
      let Ha := fresh "Ha" in
      apply bind_Ok in H as (a & Ha & H)
  end.

Lemma foldM_app {A B} (f : B → A → result B) acc (l1 l2 : list A) :
  foldM f acc (l1 ++ l2) = foldM f acc l1 ≫= λ acc', foldM f acc' l2.
Proof.
  revert acc. induction l1 as [|x l1 IH]; intros acc; simpl; [done|].
  destruct (f acc x) as [acc'|e]; simpl; auto.
Qed.

(** ** The categorizer follows the three rules in order *)

Lemma lower_enterprise : lower "enterprise" = "enterprise".
Proof. reflexivity. Qed.

(** C6.  For every method and path the categorizer returns the one label
    that the three rules, read in priority order, assign to the path:
    [experimental] when the path contains [/v2-experimental/], else
    [enterprise] when it contains [/orgs/] or, ignoring case, [enterprise],
    else [standard].  In particular a path containing both
    [/v2-experimental/] and [/orgs/] is [experimental]. *)
Theorem categorize_endpoint_priority (method path : string) :
  spec_category path (categorize_endpoint method path) ∧
  (∀ label, spec_category path label → label = categorize_endpoint method path) ∧
  (occurs_in "/v2-experimental/" path → occurs_in "/orgs/" path →
   categorize_endpoint method path = "experimental").
Proof.
  unfold categorize_endpoint.
  pose proof (contains_occurs_in "/v2-experimental/" path) as Hexp.
  pose proof (contains_occurs_in "/orgs/" path) as Horgs.
  pose proof (contains_lower_nocase "enterprise" path lower_enterprise) as Hent.
  destruct (contains "/v2-experimental/" path).
  - split_and!; [constructor; by apply Hexp| |done].
    intros label [| Hno _ | Hno _ _]; [done|..]; destruct Hno; by apply Hexp.
  - assert (¬ occurs_in "/v2-experimental/" path) as Hno by (rewrite <- Hexp; done).
    split_and!; [| |done].
    + destruct (contains "/orgs/" path); simpl.
      { apply spec_enterprise; [done|]. left. by apply Horgs. }
      destruct (contains "enterprise" (lower path)).
      { apply spec_enterprise; [done|]. right. by apply Hent. }
      apply spec_standard; [done|rewrite <- Horgs; done|rewrite <- Hent; done].
    + intros label [H | _ H | _ H1 H2]; [done| |].
      * destruct H as [H|H]; [apply Horgs in H|apply Hent in H]; rewrite H; [done|].
        by rewrite orb_true_r.
      * destruct (contains "/orgs/" path); [destruct H1; by apply Horgs|].
        destruct (contains "enterprise" (lower path)); [destruct H2; by apply Hent|done].
Qed.

Lemma categorize_endpoint_priority_witness :
  categorize_endpoint "POST" "/v2-experimental/orgs/{org_id}/widgets" = "experimental".
Proof.
  apply (categorize_endpoint_priority "POST" "/v2-experimental/orgs/{org_id}/widgets").
  - by exists "", "orgs/{org_id}/widgets".
  - by exists "/v2-experimental", "{org_id}/widgets".
Defined.

(** ** Missing sections *)

(** C5.  A document without a [paths] section extracts to the empty
    endpoint mapping, and a document without a [components] section, or
    whose [components] has no [schemas] section, extracts to the empty
    schema mapping; extraction returns, it does not raise. *)
Theorem extract_missing_sections (fields : list (string * json)) :
  (dict_get "paths" fields = None → extract_endpoints (JObj fields) = Ok ∅) ∧
  (dict_get "components" fields = None → extract_schemas (JObj fields) = Ok ∅) ∧
  (∀ cfields, dict_get "components" fields = Some (JObj cfields) →
     dict_get "schemas" cfields = None → extract_schemas (JObj fields) = Ok ∅).
Proof.
  unfold extract_endpoints, extract_schemas. split_and!.
  - intros H. simpl. by rewrite H.
  - intros H. simpl. by rewrite H.
  - intros cfields H1 H2. simpl. rewrite H1. simpl. by rewrite H2.
Qed.

Lemma extract_missing_sections_witness :
  extract_endpoints (JObj [("openapi", JStr "3.0.1")]) = Ok ∅ ∧
  extract_schemas (JObj [("openapi", JStr "3.0.1")]) = Ok ∅ ∧
  extract_schemas (JObj [("components", JObj [("responses", JObj [])])]) = Ok ∅.
Proof.
  split_and!.
  - by apply (extract_missing_sections [("openapi", JStr "3.0.1")]).
  - by apply (extract_missing_sections [("openapi", JStr "3.0.1")]).
  - by apply (extract_missing_sections [("components", JObj [("responses", JObj [])])])
      with [("responses", JObj [])].
Defined.

(** ** Wrong argument count *)

(** The usage error and a run that found changes end with the same exit
    status, 1. *)
Lemma usage_status_same_as_changes :
  main (λ _, "") (λ _, "") ["diff-spec.py"; "baseline.json"] sample_load
    = Run [] ["Usage: diff-spec.py <baseline.json> <current.json>"] (Exited 1) ∧
  status (main (λ _, "") (λ _, "")
            ["diff-spec.py"; "baseline.json"; "current.json"] sample_load)
    = Exited 1.
Proof. split; vm_refl. Qed.

(** C4, amended.  Invoked with any number of positional arguments other
    than two, the program prints the one-line usage hint to the error
    stream, prints no report, and exits with status 1: non-zero and
    different from the status 0 of "no changes", the same as the status of
    "changes found". *)
Theorem main_usage_error (py_str : json → string) (describe : change → string)
    (prog : string) (args : list string)
    (load : string → result json) :
  length args ≠ 2%nat →
  main py_str describe (prog :: args) load
    = Run [] ["Usage: " +:+ prog +:+ " <baseline.json> <current.json>"] (Exited 1).
Proof.
  intros Hlen. destruct args as [|a1 [|a2 [|a3 args]]]; simpl in *; done.
Qed.

Lemma main_usage_error_witness :
  main (λ _, "") (λ _, "") ["diff-spec.py"; "a.json"; "b.json"; "c.json"] sample_load
    = Run [] ["Usage: diff-spec.py <baseline.json> <current.json>"] (Exited 1).
Proof.
  apply (main_usage_error (λ _, "") (λ _, "") "diff-spec.py"
           ["a.json"; "b.json"; "c.json"] sample_load).
  simpl. lia.
Defined.

(** ** Which keys are operations *)

(** The key [GET] equals [get] once case is ignored, and yet no endpoint
    is extracted for it. *)
Lemma uppercase_method_not_extracted :
  lower "GET" ∈ HTTP_METHODS ∧ extract_endpoints uppercase_method_doc = Ok ∅.
Proof. split; [by vm_compute|vm_refl]. Qed.

(** *** Facts about sorting *)

Lemma insert_by_perm {A} (ltb : A → A → bool) x l : insert_by ltb x l ≡ₚ x :: l.
Proof.
  induction l as [|y l IH]; simpl; [done|].
  destruct (ltb y x); [|done]. rewrite IH. apply Permutation_swap.
Qed.

Lemma py_sort_perm {A} (ltb : A → A → bool) l : py_sort ltb l ≡ₚ l.
Proof.
  induction l as [|x l IH]; simpl; [done|].
  unfold py_sort in *. simpl. by rewrite insert_by_perm, IH.
Qed.

Lemma elem_of_py_sort {A} (ltb : A → A → bool) x l : x ∈ py_sort ltb l ↔ x ∈ l.
Proof. by rewrite py_sort_perm. Qed.

Lemma py_sorted_perm {A} (lt : A → A → result bool) l out :
  py_sorted lt l = Ok out → out ≡ₚ l.
Proof.
  unfold py_sorted. destruct (orderable lt l); [|done].
  intros [= <-]. apply py_sort_perm.
Qed.

Lemma ltb_le (s t : string) : String.ltb s t = true → String.le s t.
Proof.
  unfold String.le, String.leb, String.ltb.
  by destruct (String.compare s t).
Qed.

Lemma not_ltb_le (s t : string) : String.ltb s t = false → String.le t s.
Proof.
  unfold String.le, String.leb, String.ltb.
  rewrite (String.compare_antisym s t).
  by destruct (String.compare t s).
Qed.

Lemma insert_by_sorted (x : string) l :
  Sorted String.le l → Sorted String.le (insert_by String.ltb x l).
Proof.
  induction 1 as [|y l Hl IH Hhd]; simpl; [by repeat constructor|].
  destruct (String.ltb y x) eqn:Hyx.
  - constructor; [done|].
    destruct Hhd as [|z l Hyz]; simpl.
    + constructor. by apply ltb_le.
    + destruct (String.ltb z x); constructor; [done|by apply ltb_le].
  - repeat constructor; [done..|by apply not_ltb_le].
Qed.

Lemma py_sort_strings_sorted (l : list string) :
  Sorted String.le (py_sort String.ltb l).
Proof.
  induction l as [|x l IH]; [constructor|]. by apply insert_by_sorted.
Qed.

(** Two sorted lists of strings with the same entries, counted with their
    repetitions, are the same list. *)
Lemma sorted_strings_unique (l1 l2 : list string) :
  Sorted String.le l1 → Sorted String.le l2 → l1 ≡ₚ l2 → l1 = l2.
Proof. apply Sorted_unique; apply _. Qed.

(** *** Facts about the extractor *)

Lemma elem_of_HTTP_METHODS (m : string) :
  m ∈ HTTP_METHODS ↔
  m = "get" ∨ m = "post" ∨ m = "put" ∨ m = "patch" ∨ m = "delete".
Proof.
  unfold HTTP_METHODS. rewrite elem_of_list_to_set, !elem_of_cons, elem_of_nil.
  tauto.
Qed.

(** Upper-casing does not confuse two recognized methods. *)
Lemma upper_http_inj (m m' : string) :
  m ∈ HTTP_METHODS → m' ∈ HTTP_METHODS → upper m = upper m' → m = m'.
Proof.
  rewrite !elem_of_HTTP_METHODS.
  intros [->|[->|[->|[->| ->]]]] [->|[->|[->|[->| ->]]]] Heq;
    first [reflexivity | vm_compute in Heq; discriminate Heq].
Qed.

Lemma foldM_extract_methods path ms acc eps :
  NoDup ms.*1 →
  foldM (extract_methods path) acc ms = Ok eps →
  (∀ m details, (m, details) ∈ ms → m ∈ HTTP_METHODS → is_ok (build_endpoint details)) ∧
  (∀ key info, eps !! key = Some info ↔
     from_item path ms key info ∨ (acc !! key = Some info ∧ not_from_item path ms key)).
Proof.
  unfold from_item, not_from_item.
  revert acc. induction ms as [|[m0 d0] ms IH]; intros acc Hnd H.
  { simpl in H. injection H as <-. split; [by intros ?? ?%elem_of_nil|].
    intros key info. split; [|intros [(?&?&?%elem_of_nil&_)|[? _]]; done].
    intros ?. right. split; [done|]. by intros ? ?%elem_of_nil. }
  apply NoDup_cons in Hnd as [Hm0 Hnd]. simpl in H. inv_bind H.
  destruct (IH _ Hnd H) as [IHok IHlook]. clear IH H.
  assert (∀ m, m ∈ ms.*1 → m ∈ HTTP_METHODS → m0 ∈ HTTP_METHODS →
            (upper m0, path) ≠ (upper m, path)) as Hfresh.
  { intros m Hm ?? [= Heq]. apply upper_http_inj in Heq; [|done..]. by subst. }
  unfold extract_methods in Ha. destruct (decide (m0 ∈ HTTP_METHODS)) as [Hin|Hnin].
  - inv_bind Ha. injection Ha as <-. rename a0 into info0. split.
    { intros m details [[= -> ->]|?]%elem_of_cons ?; [by rewrite Ha0|eauto]. }
    intros key info. rewrite IHlook. setoid_rewrite elem_of_cons. simpl.
    destruct (decide (key = (upper m0, path))) as [->|Hne].
    + rewrite lookup_insert_eq. split.
      * intros [(m & details & Hmd & ? & Heq & _)|[[= <-] _]].
        { exfalso. eapply Hfresh; [|done..]. apply list_elem_of_fmap. by exists (m, details). }
        left. exists m0, d0. eauto.
      * intros [(m & details & [[= -> ->]|Hmd] & ? & Heq & Hb)|[_ Hno]].
        { right. split; [congruence|]. eauto. }
        { exfalso. eapply Hfresh; [|done..]. apply list_elem_of_fmap. by exists (m, details). }
        exfalso. by eapply Hno; [left|..].
    + rewrite lookup_insert_ne by done. split.
      * intros [(m & details & ? & ?)|[? Hno]]; [left; exists m, details; eauto|].
        right. split; [done|]. intros m [->|?] ?; eauto.
      * intros [(m & details & [[= -> ->]|?] & ? & ? & ?)|[? Hno]]; [done|left; eauto 10|].
        right. eauto.
  - injection Ha as <-. split.
    { intros m details [[= -> ->]|?]%elem_of_cons ?; [done|eauto]. }
    intros key info. rewrite IHlook. setoid_rewrite elem_of_cons. simpl. split.
    + intros [(m & details & ? & ?)|[? Hno]]; [left; exists m, details; eauto|].
      right. split; [done|]. intros m [->|?] ?; [done|eauto].
    + intros [(m & details & [[= -> ->]|?] & ? & ? & ?)|[? Hno]]; [done|left; eauto 10|].
      right. eauto.
Qed.

Lemma foldM_extract_path paths acc eps :
  NoDup paths.*1 →
  (∀ path ms, (path, JObj ms) ∈ paths → NoDup ms.*1) →
  foldM extract_path acc paths = Ok eps →
  (∀ path ms m details, (path, JObj ms) ∈ paths → (m, details) ∈ ms →
     m ∈ HTTP_METHODS → is_ok (build_endpoint details)) ∧
  (∀ key info, eps !! key = Some info ↔
     from_paths paths key info ∨ (acc !! key = Some info ∧ not_from_paths paths key)).
Proof.
  unfold from_paths, not_from_paths.
  revert acc. induction paths as [|[p0 item0] paths IH]; intros acc Hnd Hwf H.
  { simpl in H. injection H as <-. split; [by intros ???? ?%elem_of_nil|].
    intros key info. split; [|intros [(?&?&?%elem_of_nil&_)|[? _]]; done].
    intros ?. right. split; [done|]. by intros ?? ?%elem_of_nil. }
  apply NoDup_cons in Hnd as [Hp0 Hnd]. simpl in H. inv_bind H.
  destruct (IH a Hnd) as [IHok IHlook]; [by eauto using list_elem_of_further|done|].
  clear IH H. unfold extract_path in Ha. inv_bind Ha.
  destruct item0 as [| | | | |ms0]; try discriminate Ha0. injection Ha0 as <-.
  apply foldM_extract_methods in Ha as [Hok Hlook]; [|by eauto using list_elem_of_here].
  assert (∀ path ms key info, (path, JObj ms) ∈ paths →
            from_item p0 ms0 key info → not_from_item path ms key) as Hother.
  { intros path ms key info Hin (m & details & _ & _ & -> & _) m' _ _ [= _ <-].
    apply Hp0, list_elem_of_fmap. by exists (p0, JObj ms). }
  split.
  { intros path ms m details [[= -> ->]|?]%elem_of_cons ??; eauto. }
  intros key info. rewrite IHlook, Hlook. setoid_rewrite elem_of_cons. split.
  - intros [(path & ms & ? & ?)|[[?|[? Hno0]] Hno]].
    + left. exists path, ms. eauto.
    + left. exists p0, ms0. eauto.
    + right. split; [done|]. intros path ms [[= -> ->]|?]; eauto.
  - intros [(path & ms & [[= -> ->]|?] & Hfrom)|[? Hno]].
    + right. split; [by left|]. eauto.
    + left. eauto.
    + right. split; [|by eauto]. right. eauto.
Qed.

(** ** Which keys are operations, as the code decides it *)

(** C1, amended.  For every path entry of the document and every key under
    it that is exactly one of the lower-case names [get], [post], [put],
    [patch], [delete], one endpoint record, built from that entry, is
    stored under the key made of the upper-cased method and the unchanged
    path; every stored record comes from such an entry, so any other key
    (an upper-case or mixed-case method name, a vendor extension,
    [parameters]) produces no record. *)
Theorem extract_endpoints_lowercase_methods
    (fields paths : list (string * json)) (eps : gmap (string * string) endpoint) :
  dict_get "paths" fields = Some (JObj paths) →
  NoDup paths.*1 →
  (∀ path ms, (path, JObj ms) ∈ paths → NoDup ms.*1) →
  extract_endpoints (JObj fields) = Ok eps →
  (∀ path ms m details,
     (path, JObj ms) ∈ paths → (m, details) ∈ ms → m ∈ HTTP_METHODS →
     ∃ info, build_endpoint details = Ok info ∧ eps !! (upper m, path) = Some info) ∧
  (∀ key info, eps !! key = Some info →
     ∃ path ms m details,
       (path, JObj ms) ∈ paths ∧ (m, details) ∈ ms ∧ m ∈ HTTP_METHODS ∧
       key = (upper m, path) ∧ build_endpoint details = Ok info).
Proof.
  intros Hpaths Hnd Hwf H. unfold extract_endpoints in H. simpl in H.
  rewrite Hpaths in H. simpl in H.
  apply foldM_extract_path in H as [Hok Hlook]; [|done..]. split.
  - intros path ms m details Hp Hm Hin.
    specialize (Hok _ _ _ _ Hp Hm Hin).
    destruct (build_endpoint details) as [info|] eqn:Hb; [|done].
    exists info. split; [done|]. apply Hlook. left.
    exists path, ms. split; [done|]. by exists m, details.
  - intros key info [(path & ms & ? & m & details & ?)|[Hempty _]]%Hlook.
    + exists path, ms, m, details. tauto.
    + by rewrite lookup_empty in Hempty.
Qed.

Lemma extract_endpoints_lowercase_methods_witness :
  ∃ info, build_endpoint (JObj [("summary", JStr "List boards")]) = Ok info ∧
    boards_endpoints "List boards" !! (upper "get", "/boards") = Some info.
Proof.
  apply (extract_endpoints_lowercase_methods
    [("paths", JObj [("/boards", JObj [("get", JObj [("summary", JStr "List boards")])])])]
    [("/boards", JObj [("get", JObj [("summary", JStr "List boards")])])]
    (boards_endpoints "List boards"))
    with (ms := [("get", JObj [("summary", JStr "List boards")])]).
  - reflexivity.
  - repeat constructor. by intros ?%elem_of_nil.
  - intros path ms [[= -> ->]|?%elem_of_nil]%elem_of_cons; [|done].
    repeat constructor. by intros ?%elem_of_nil.
  - vm_refl.
  - by left.
  - by left.
  - apply elem_of_HTTP_METHODS. by left.
Defined.

(** *** Facts about equality of values *)

Lemma json_induction (P : json → Prop) :
  P JNull → (∀ b, P (JBool b)) → (∀ n, P (JNum n)) → (∀ s, P (JStr s)) →
  (∀ items, Forall P items → P (JArr items)) →
  (∀ fields, Forall (λ kv, P kv.2) fields → P (JObj fields)) →
  ∀ j, P j.
Proof.
  intros Hnull Hbool Hnum Hstr Harr Hobj. fix IH 1.
  intros [|b|n|s|items|fields]; [done..| |].
  - apply Harr. induction items as [|x items IHitems]; constructor; [apply IH|apply IHitems].
  - apply Hobj. induction fields as [|[k v] fields IHfields]; constructor;
      [apply IH|apply IHfields].
Qed.

Lemma py_eq_arr (xs ys : list json) :
  py_eq (JArr xs) (JArr ys) = true ↔ Forall2 (λ x y, py_eq x y = true) xs ys.
Proof.
  revert ys. induction xs as [|x xs IH]; intros [|y ys]; simpl.
  - split; [constructor|done].
  - split; [done|inversion 1].
  - split; [done|inversion 1].
  - rewrite andb_true_iff. specialize (IH ys). simpl in IH. rewrite IH.
    split; [intros []; by constructor|by inversion 1].
Qed.

Lemma py_eq_obj (xs ys : list (string * json)) :
  py_eq (JObj xs) (JObj ys) = true ↔
  (∀ k v, (k, v) ∈ xs → ∃ w, (k, w) ∈ ys ∧ py_eq v w = true) ∧
  (∀ k w, (k, w) ∈ ys → ∃ v, (k, v) ∈ xs ∧ py_eq v w = true).
Proof.
  simpl. rewrite andb_true_iff, !forallb_forall.
  setoid_rewrite <- list_elem_of_In. split; intros [H1 H2]; split.
  - intros k v Hin. apply H1 in Hin. apply existsb_exists in Hin as ([k' w] & Hin & Hkw).
    apply andb_true_iff in Hkw as [->%bool_decide_eq_true Hvw].
    exists w. by rewrite list_elem_of_In.
  - intros k w Hin. apply H2 in Hin. apply existsb_exists in Hin as ([k' v] & Hin & Hkv).
    apply andb_true_iff in Hkv as [->%bool_decide_eq_true Hvw].
    exists v. by rewrite list_elem_of_In.
  - intros [k v] Hin. destruct (H1 _ _ Hin) as (w & Hw & Hvw).
    apply existsb_exists. exists (k, w). rewrite <- list_elem_of_In.
    split; [done|]. by rewrite bool_decide_eq_true_2.
  - intros [k w] Hin. destruct (H2 _ _ Hin) as (v & Hv & Hvw).
    apply existsb_exists. exists (k, v). rewrite <- list_elem_of_In.
    split; [done|]. by rewrite bool_decide_eq_true_2.
Qed.

Lemma py_eq_refl (a : json) : py_eq a a = true.
Proof.
  induction a as [|b|n|s|items IH|fields IH] using json_induction.
  - done.
  - simpl. apply Z.eqb_refl.
  - simpl. apply Z.eqb_refl.
  - simpl. by apply bool_decide_eq_true_2.
  - apply py_eq_arr. induction IH; by constructor.
  - apply py_eq_obj. rewrite Forall_forall in IH.
    split; intros k v Hin; exists v; (split; [done|]); apply (IH (k, v) Hin).
Qed.

Lemma py_eq_sym (a b : json) : py_eq a b = py_eq b a.
Proof.
  revert b. induction a as [|x|n|s|items IH|fields IH] using json_induction;
    intros [|y|m|t|items'|fields']; try done.
  - simpl. apply Z.eqb_sym.
  - simpl. apply Z.eqb_sym.
  - simpl. apply Z.eqb_sym.
  - simpl. apply Z.eqb_sym.
  - simpl. apply bool_decide_ext. by split.
  - apply eq_true_iff_eq. rewrite !py_eq_arr.
    revert items'. induction IH as [|x items Hx _ IHitems]; intros items'.
    + split; inversion 1; constructor.
    + split; inversion 1; subst; constructor;
        try (by apply IHitems); by rewrite ?Hx in *.
  - apply eq_true_iff_eq. rewrite !py_eq_obj. rewrite Forall_forall in IH.
    split; intros [H1 H2]; split; intros k v Hin.
    + destruct (H2 _ _ Hin) as (w & Hw & ?). exists w. split; [done|].
      by rewrite <- (IH (k, w) Hw).
    + destruct (H1 _ _ Hin) as (w & Hw & ?). exists w. split; [done|].
      by rewrite <- (IH (k, v) Hin).
    + destruct (H2 _ _ Hin) as (w & Hw & ?). exists w. split; [done|].
      by rewrite (IH (k, v) Hin).
    + destruct (H1 _ _ Hin) as (w & Hw & ?). exists w. split; [done|].
      by rewrite (IH (k, w) Hw).
Qed.

Lemma py_ne_sym (a b : json) : py_ne a b = py_ne b a.
Proof. unfold py_ne. by rewrite py_eq_sym. Qed.

Lemma py_ne_refl (a : json) : py_ne a a = false.
Proof. unfold py_ne. by rewrite py_eq_refl. Qed.

Lemma py_eq_strings (l1 l2 : list string) :
  py_eq (JArr (JStr <$> l1)) (JArr (JStr <$> l2)) = true ↔ l1 = l2.
Proof.
  rewrite py_eq_arr. revert l2. induction l1 as [|s l1 IH]; intros [|t l2]; simpl.
  - split; [done|constructor].
  - split; [inversion 1|done].
  - split; [inversion 1|done].
  - split.
    + inversion 1 as [|???? Hst Hrest]; subst. simpl in Hst.
      apply bool_decide_eq_true in Hst as ->. f_equal. by apply IH.
    + intros [= -> ->]. constructor; [by apply bool_decide_eq_true_2|]. by apply IH.
Qed.

(** *** Facts about the loop over the shared keys *)

(** Both differs run the same loop: look the key up on each side, compute
    the change descriptions, and append the key when there is one. *)
Section diff_loop.
Context {K V : Type} `{Countable K}.
Context (baseline current : gmap K V) (diffs_of : V → V → result (list change)).
Context (step : list (K * list change) → K → result (list (K * list change))).
Hypothesis step_eq : ∀ changed key,
  step changed key =
    old ← py_index baseline key;
    new ← py_index current key;
    diffs ← diffs_of old new;
    Ok (match diffs with [] => changed | _ :: _ => changed ++ [(key, diffs)] end).

(** The descriptions computed for a key present on both sides. *)
Definition key_diffs (key : K) (diffs : list change) : Prop :=
  ∃ old new, baseline !! key = Some old ∧ current !! key = Some new ∧
    diffs_of old new = Ok diffs.

Lemma step_Ok changed key changed' :
  step changed key = Ok changed' →
  ∃ diffs, key_diffs key diffs ∧
    changed' = match diffs with [] => changed | _ :: _ => changed ++ [(key, diffs)] end.
Proof.
  rewrite step_eq. unfold py_index, key_diffs. intros Hs.
  destruct (baseline !! key) as [old|]; [|done].
  destruct (current !! key) as [new|]; [|done]. simpl in Hs.
  destruct (diffs_of old new) as [diffs|] eqn:Hd; [|done]. simpl in Hs.
  injection Hs as <-. exists diffs. split; [|done]. by exists old, new.
Qed.

Lemma key_diffs_step changed key diffs :
  key_diffs key diffs →
  step changed key =
    Ok (match diffs with [] => changed | _ :: _ => changed ++ [(key, diffs)] end).
Proof.
  intros (old & new & Ho & Hn & Hd). rewrite step_eq. unfold py_index.
  rewrite Ho, Hn. simpl. by rewrite Hd.
Qed.

Lemma key_diffs_unique key d1 d2 : key_diffs key d1 → key_diffs key d2 → d1 = d2.
Proof. intros (?&?&?&?&?) (?&?&?&?&?). congruence. Qed.

Lemma foldM_step_defined keys changed changed' :
  foldM step changed keys = Ok changed' →
  ∀ key, key ∈ keys → ∃ diffs, key_diffs key diffs.
Proof.
  revert changed. induction keys as [|k keys IH]; intros changed Hf key Hin.
  { by apply elem_of_nil in Hin. }
  simpl in Hf. inv_bind Hf. apply step_Ok in Ha as (diffs & Hk & _).
  apply elem_of_cons in Hin as [->|Hin]; eauto.
Qed.

Lemma foldM_step_elem keys changed changed' :
  foldM step changed keys = Ok changed' →
  ∀ key diffs, (key, diffs) ∈ changed' ↔
    (key, diffs) ∈ changed ∨ (key ∈ keys ∧ diffs ≠ [] ∧ key_diffs key diffs).
Proof.
  revert changed. induction keys as [|k keys IH]; intros changed Hf key diffs.
  { simpl in Hf. injection Hf as <-. rewrite elem_of_nil. tauto. }
  simpl in Hf. inv_bind Hf. apply step_Ok in Ha as (d & Hk & ->).
  rewrite (IH _ Hf), elem_of_cons. destruct d as [|c d].
  - split; [tauto|]. intros [?|[[->|?] [Hne ?]]]; [tauto| |tauto].
    destruct Hne. by eapply key_diffs_unique.
  - rewrite elem_of_app, list_elem_of_singleton. split.
    + intros [[?|[= -> ->]]|?]; [tauto| |tauto]. right. by split_and!; [left|..].
    + intros [?|[[->|?] [Hne Hd]]]; [tauto| |tauto].
      left. right. f_equal. by eapply key_diffs_unique.
Qed.

Lemma foldM_step_total keys changed :
  (∀ key, key ∈ keys → ∃ diffs, key_diffs key diffs) →
  ∃ changed', foldM step changed keys = Ok changed'.
Proof.
  revert changed. induction keys as [|k keys IH]; intros changed Hall; simpl.
  { by eexists. }
  destruct (Hall k) as (d & Hd); [by left|].
  rewrite (key_diffs_step _ _ _ Hd). simpl.
  apply IH. intros key ?. apply Hall. by right.
Qed.
End diff_loop.

(** *** Facts about the change descriptions of one key *)

Lemma report_names_Ok mk names ds :
  report_names mk names = Ok ds →
  (ds = [] ↔ names = ∅) ∧ (∀ d, d ∈ ds → ∃ l, d = mk l).
Proof.
  unfold report_names. destruct (decide (names = ∅)) as [->|Hne]; intros Hr.
  - injection Hr as <-. split; [done|]. by intros ? ?%elem_of_nil.
  - inv_bind Hr. injection Hr as <-. split; [done|].
    intros d ->%list_elem_of_singleton. eauto.
Qed.

Lemma report_names_relabel mk mk' names ds :
  report_names mk names = Ok ds →
  ∃ ds', report_names mk' names = Ok ds' ∧ (ds = [] ↔ ds' = []).
Proof.
  unfold report_names. destruct (decide (names = ∅)); intros Hr.
  - injection Hr as <-. by eexists.
  - inv_bind Hr. injection Hr as <-. rewrite Ha. simpl. by eexists.
Qed.

Lemma endpoint_diffs_Ok old new diffs :
  endpoint_diffs old new = Ok diffs →
  ∃ old_names new_names d_added d_removed,
    param_names (parameters old) = Ok old_names ∧
    param_names (parameters new) = Ok new_names ∧
    report_names NewParams (new_names ∖ old_names) = Ok d_added ∧
    report_names RemovedParams (old_names ∖ new_names) = Ok d_removed ∧
    diffs =
      (if py_ne (summary old) (summary new)
       then [SummaryChanged (summary old) (summary new)] else []) ++
      (if py_ne (deprecated old) (deprecated new)
       then [DeprecatedChanged (deprecated old) (deprecated new)] else []) ++
      (if py_ne (tags old) (tags new)
       then [TagsChanged (tags old) (tags new)] else []) ++
      d_added ++ d_removed.
Proof.
  unfold endpoint_diffs. intros Hd. inv_bind Hd. injection Hd as <-.
  by exists a, a0, a1, a2.
Qed.

Lemma difference_both_empty {K} `{Countable K} (X Y : gset K) :
  Y ∖ X = ∅ ∧ X ∖ Y = ∅ ↔ X = Y.
Proof.
  split.
  - intros [H1 H2]. apply set_eq. intros x.
    destruct (decide (x ∈ X)), (decide (x ∈ Y)); set_solver.
  - intros ->. split; apply difference_diag_L.
Qed.

(** The list of descriptions is empty exactly when none of the four
    tracked checks fires. *)
Lemma endpoint_diffs_nil old new diffs old_names new_names :
  endpoint_diffs old new = Ok diffs →
  param_names (parameters old) = Ok old_names →
  param_names (parameters new) = Ok new_names →
  diffs = [] ↔
    py_ne (summary old) (summary new) = false ∧
    py_ne (deprecated old) (deprecated new) = false ∧
    py_ne (tags old) (tags new) = false ∧
    old_names = new_names.
Proof.
  intros (so & sn & da & dr & Ho & Hn & Ha & Hr & ->)%endpoint_diffs_Ok Ho' Hn'.
  assert (so = old_names) as -> by congruence.
  assert (sn = new_names) as -> by congruence.
  apply report_names_Ok in Ha as [Ha _]. apply report_names_Ok in Hr as [Hr _].
  rewrite <- difference_both_empty, <- Ha, <- Hr.
  destruct (py_ne (summary old) (summary new)),
    (py_ne (deprecated old) (deprecated new)), (py_ne (tags old) (tags new));
    simpl; try (split; [done|by intros (?&?&?&?)]).
  split.
  - by intros [-> ->]%app_eq_nil.
  - by intros (_ & _ & _ & -> & ->).
Qed.

(** Swapping the two sides keeps the loop body defined and keeps its
    description list empty or non-empty. *)
Lemma endpoint_diffs_swap old new diffs :
  endpoint_diffs old new = Ok diffs →
  ∃ diffs', endpoint_diffs new old = Ok diffs' ∧ (diffs = [] ↔ diffs' = []).
Proof.
  intros Hd.
  destruct (endpoint_diffs_Ok _ _ _ Hd) as (so & sn & da & dr & Ho & Hn & Ha & Hr & _).
  destruct (report_names_relabel _ NewParams _ _ Hr) as (da' & Ha' & _).
  destruct (report_names_relabel _ RemovedParams _ _ Ha) as (dr' & Hr' & _).
  assert (∃ diffs', endpoint_diffs new old = Ok diffs') as [diffs' Hd'].
  { unfold endpoint_diffs. rewrite Hn, Ho. simpl. rewrite Ha'. simpl. rewrite Hr'.
    by eexists. }
  exists diffs'. split; [done|].
  rewrite (endpoint_diffs_nil _ _ _ _ _ Hd Ho Hn), (endpoint_diffs_nil _ _ _ _ _ Hd' Hn Ho).
  rewrite (py_ne_sym (summary new)), (py_ne_sym (deprecated new)), (py_ne_sym (tags new)).
  split; intros (?&?&?&?); by split_and!.
Qed.

(** *** Facts about the endpoint differ *)

Lemma diff_endpoint_step_eq baseline current changed key :
  diff_endpoint_step baseline current changed key =
    old ← py_index baseline key;
    new ← py_index current key;
    diffs ← endpoint_diffs old new;
    Ok (match diffs with [] => changed | _ :: _ => changed ++ [(key, diffs)] end).
Proof. reflexivity. Qed.

Lemma elem_of_shared_keys {V} (ltb : string * string → string * string → bool)
    (baseline current : gmap (string * string) V) key :
  key ∈ py_sort ltb (elements (dom baseline ∩ dom current)) ↔
  is_Some (baseline !! key) ∧ is_Some (current !! key).
Proof.
  by rewrite elem_of_py_sort, elem_of_elements, elem_of_intersection, !elem_of_dom.
Qed.

Lemma diff_endpoints_Ok baseline current added removed changed :
  diff_endpoints baseline current = Ok (added, removed, changed) →
  added = py_sort tuple_ltb (elements (dom current ∖ dom baseline)) ∧
  removed = py_sort tuple_ltb (elements (dom baseline ∖ dom current)) ∧
  foldM (diff_endpoint_step baseline current) []
    (py_sort tuple_ltb (elements (dom baseline ∩ dom current))) = Ok changed.
Proof.
  unfold diff_endpoints. intros Hd. inv_bind Hd. by injection Hd as <- <- <-.
Qed.

Lemma elem_of_changed_keys {K} (key : K) (changed : list (K * list change)) :
  key ∈ changed.*1 ↔ ∃ diffs, (key, diffs) ∈ changed.
Proof.
  rewrite list_elem_of_fmap. split.
  - intros ([k diffs] & -> & ?). by exists diffs.
  - intros (diffs & ?). by exists (key, diffs).
Qed.

(** A shared key is listed as changed exactly when its description list
    is not empty. *)
Lemma diff_endpoints_changed_key baseline current added removed changed key old new :
  diff_endpoints baseline current = Ok (added, removed, changed) →
  baseline !! key = Some old → current !! key = Some new →
  ∃ diffs, endpoint_diffs old new = Ok diffs ∧ (key ∈ changed.*1 ↔ diffs ≠ []).
Proof.
  intros (_ & _ & Hf)%diff_endpoints_Ok Ho Hn.
  assert (key ∈ py_sort tuple_ltb (elements (dom baseline ∩ dom current))) as Hkey.
  { apply elem_of_shared_keys. by rewrite Ho, Hn. }
  destruct (foldM_step_defined _ _ _ _ (diff_endpoint_step_eq baseline current)
              _ _ _ Hf key Hkey) as (diffs & Hk).
  pose proof Hk as (old' & new' & Ho' & Hn' & Hd).
  assert (old' = old) as -> by congruence. assert (new' = new) as -> by congruence.
  exists diffs. split; [done|]. rewrite elem_of_changed_keys.
  setoid_rewrite (foldM_step_elem _ _ _ _ (diff_endpoint_step_eq baseline current)
                    _ _ _ Hf). split.
  - intros (d & [?%elem_of_nil|(_ & Hne & Hk')]); [done|].
    by rewrite (key_diffs_unique _ _ _ _ _ _ Hk Hk').
  - intros Hne. exists diffs. right. by split_and!.
Qed.

(** *** Facts about parameter names *)

Lemma mapM_Ok {A B} (f : A → result B) (l : list A) (k : list B) :
  mapM f l = Ok k ↔ Forall2 (λ x y, f x = Ok y) l k.
Proof.
  revert k. induction l as [|x l IH]; intros k; simpl.
  - split; [intros [= <-]; constructor|by inversion 1].
  - split.
    + intros Hm. inv_bind Hm. injection Hm as <-. constructor; [done|by apply IH].
    + inversion 1 as [|???? Hx Hl]; subst. rewrite Hx. simpl.
      apply IH in Hl. by rewrite Hl.
Qed.

Lemma mapM_total {A B} (f : A → result B) (l : list A) :
  Forall (λ x, is_ok (f x)) l → ∃ k, mapM f l = Ok k.
Proof.
  induction 1 as [|x l Hx _ [k Hk]]; simpl; [by eexists|].
  destruct (f x) as [y|]; [|done]. simpl. rewrite Hk. by eexists.
Qed.

Lemma elem_of_param_names params names (k : pykey) :
  param_names params = Ok names →
  k ∈ names ↔ ∃ n, n ∈ p_name <$> params ∧ py_hashable n = Ok k.
Proof.
  unfold param_names. intros Hp. inv_bind Hp. injection Hp as <-.
  apply mapM_Ok in Ha. rewrite elem_of_list_to_set.
  induction Ha as [|p y ps ys Hy _ IH]; simpl.
  - rewrite elem_of_nil. split; [done|]. by intros (n & ?%elem_of_nil & _).
  - rewrite elem_of_cons, IH. split.
    + intros [->|(n & ? & ?)]; [exists (p_name p)|exists n];
        (split; [|done]); [by left|by right].
    + intros (n & [->|?]%elem_of_cons & Hn); [left; congruence|right; eauto].
Qed.

Lemma elem_of_param_key params names (k : pykey) :
  param_names params = Ok names →
  k ∈ names ↔ ∃ p, p ∈ params ∧ py_hashable (p_name p) = Ok k.
Proof.
  intros Hp. rewrite (elem_of_param_names _ _ _ Hp). split.
  - intros (n & (p & -> & Hin)%list_elem_of_fmap & Hn). by exists p.
  - intros (p & Hin & Hn). exists (p_name p). split; [|done].
    apply list_elem_of_fmap. by exists p.
Qed.

Lemma elem_of_param_string params names (s : string) :
  param_names params = Ok names →
  KStr s ∈ names ↔ ∃ p, p ∈ params ∧ p_name p = JStr s.
Proof.
  intros Hp. rewrite (elem_of_param_key _ _ _ Hp). split.
  - intros (p & Hin & Hn). exists p. split; [done|].
    destruct (p_name p); simpl in Hn; by simplify_eq.
  - intros (p & Hin & Hn). exists p. by rewrite Hn.
Qed.


Lemma param_names_ext ps1 ps2 :
  p_name <$> ps1 = p_name <$> ps2 → param_names ps1 = param_names ps2.
Proof.
  unfold param_names. intros Heq. f_equal.
  revert ps2 Heq. induction ps1 as [|p ps1 IH]; intros [|q ps2] [=]; simpl; [done|].
  rewrite (IH ps2) by done. congruence.
Qed.

(** ** The changed collection of the endpoint differ *)

(** C3.  For a key present in both endpoint mappings, the key is in the
    changed collection exactly when one of the four tracked checks fires:
    unequal summaries, unequal deprecated flags, unequal tag sequences, or
    unequal sets of parameter names.  The two sets are the sets of the
    [name] values of the two parameter lists, as a Python set holds them:
    a key is in the set exactly when it is the hash key of the name of
    some parameter, and a string exactly when it is the name of some
    parameter.  Two records that compare equal on the three fields and
    have the same names, whatever their [operationId] and the [in] and
    [required] of their parameters, never put the key in the changed
    collection. *)
Theorem diff_endpoints_changed_iff
    (baseline current : gmap (string * string) endpoint)
    (added removed : list (string * string))
    (changed : list (string * string * list change))
    (key : string * string) (old new : endpoint) :
  diff_endpoints baseline current = Ok (added, removed, changed) →
  baseline !! key = Some old →
  current !! key = Some new →
  ∃ old_names new_names : gset pykey,
    param_names (parameters old) = Ok old_names ∧
    param_names (parameters new) = Ok new_names ∧
    (∀ k, k ∈ old_names ↔ ∃ p, p ∈ parameters old ∧ py_hashable (p_name p) = Ok k) ∧
    (∀ k, k ∈ new_names ↔ ∃ p, p ∈ parameters new ∧ py_hashable (p_name p) = Ok k) ∧
    (∀ s, KStr s ∈ old_names ↔ ∃ p, p ∈ parameters old ∧ p_name p = JStr s) ∧
    (∀ s, KStr s ∈ new_names ↔ ∃ p, p ∈ parameters new ∧ p_name p = JStr s) ∧
    (key ∈ changed.*1 ↔
       py_ne (summary old) (summary new) = true ∨
       py_ne (deprecated old) (deprecated new) = true ∨
       py_ne (tags old) (tags new) = true ∨
       old_names ≠ new_names) ∧
    (py_eq (summary old) (summary new) = true →
     py_eq (deprecated old) (deprecated new) = true →
     py_eq (tags old) (tags new) = true →
     (∀ n, n ∈ p_name <$> parameters old ↔ n ∈ p_name <$> parameters new) →
     key ∉ changed.*1).
Proof.
  intros Hd Ho Hn.
  destruct (diff_endpoints_changed_key _ _ _ _ _ _ _ _ Hd Ho Hn) as (diffs & Hdiffs & Hkey).
  destruct (endpoint_diffs_Ok _ _ _ Hdiffs) as (so & sn & _ & _ & Hso & Hsn & _).
  exists so, sn. split_and!; [done|done|..].
  - intros k. apply (elem_of_param_key _ _ _ Hso).
  - intros k. apply (elem_of_param_key _ _ _ Hsn).
  - intros s. apply (elem_of_param_string _ _ _ Hso).
  - intros s. apply (elem_of_param_string _ _ _ Hsn).
  - rewrite Hkey, (endpoint_diffs_nil _ _ _ _ _ Hdiffs Hso Hsn).
    destruct (py_ne (summary old) (summary new)),
      (py_ne (deprecated old) (deprecated new)), (py_ne (tags old) (tags new)),
      (decide (so = sn)); intuition congruence.
  - intros Hs Hdp Ht Hp. rewrite Hkey, (endpoint_diffs_nil _ _ _ _ _ Hdiffs Hso Hsn).
    intros Hne. apply Hne. unfold py_ne. rewrite Hs, Hdp, Ht. split_and!; [done..|].
    apply set_eq. intros k.
    rewrite (elem_of_param_names _ _ _ Hso), (elem_of_param_names _ _ _ Hsn).
    by setoid_rewrite Hp.
Qed.

Lemma diff_endpoints_changed_iff_witness :
  ∃ old_names new_names : gset pykey,
    param_names (parameters (paged_info "List boards" [cursor_param])) = Ok old_names ∧
    param_names (parameters (paged_info "List boards" [cursor_param; limit_param]))
      = Ok new_names ∧
    (∀ k, k ∈ old_names ↔
       ∃ p, p ∈ parameters (paged_info "List boards" [cursor_param]) ∧
         py_hashable (p_name p) = Ok k) ∧
    (∀ k, k ∈ new_names ↔
       ∃ p, p ∈ parameters (paged_info "List boards" [cursor_param; limit_param]) ∧
         py_hashable (p_name p) = Ok k) ∧
    (∀ s, KStr s ∈ old_names ↔
       ∃ p, p ∈ parameters (paged_info "List boards" [cursor_param]) ∧
         p_name p = JStr s) ∧
    (∀ s, KStr s ∈ new_names ↔
       ∃ p, p ∈ parameters (paged_info "List boards" [cursor_param; limit_param]) ∧
         p_name p = JStr s) ∧
    (("GET", "/boards") ∈ [("GET", "/boards", [NewParams [KStr "limit"]])].*1 ↔
       py_ne (summary (paged_info "List boards" [cursor_param]))
             (summary (paged_info "List boards" [cursor_param; limit_param])) = true ∨
       py_ne (deprecated (paged_info "List boards" [cursor_param]))
             (deprecated (paged_info "List boards" [cursor_param; limit_param])) = true ∨
       py_ne (tags (paged_info "List boards" [cursor_param]))
             (tags (paged_info "List boards" [cursor_param; limit_param])) = true ∨
       old_names ≠ new_names) ∧
    (py_eq (summary (paged_info "List boards" [cursor_param]))
           (summary (paged_info "List boards" [cursor_param; limit_param])) = true →
     py_eq (deprecated (paged_info "List boards" [cursor_param]))
           (deprecated (paged_info "List boards" [cursor_param; limit_param])) = true →
     py_eq (tags (paged_info "List boards" [cursor_param]))
           (tags (paged_info "List boards" [cursor_param; limit_param])) = true →
     (∀ n, n ∈ p_name <$> parameters (paged_info "List boards" [cursor_param]) ↔
           n ∈ p_name <$> parameters (paged_info "List boards" [cursor_param; limit_param])) →
     ("GET", "/boards") ∉ [("GET", "/boards", [NewParams [KStr "limit"]])].*1).
Proof.
  apply (diff_endpoints_changed_iff
           (paged_endpoints "List boards" [cursor_param])
           (paged_endpoints "List boards" [cursor_param; limit_param]) [] []).
  - vm_refl.
  - vm_refl.
  - vm_refl.
Defined.

(** *** Facts about the schema differ *)

Lemma diff_schema_step_eq baseline current changed name :
  diff_schema_step baseline current changed name =
    old ← py_index baseline name;
    new ← py_index current name;
    diffs ← Ok (schema_diffs old new);
    Ok (match diffs with [] => changed | _ :: _ => changed ++ [(name, diffs)] end).
Proof. reflexivity. Qed.

Lemma diff_schemas_Ok baseline current added removed changed :
  diff_schemas baseline current = Ok (added, removed, changed) →
  added = py_sort String.ltb (elements (dom current ∖ dom baseline)) ∧
  removed = py_sort String.ltb (elements (dom baseline ∖ dom current)) ∧
  foldM (diff_schema_step baseline current) []
    (py_sort String.ltb (elements (dom baseline ∩ dom current))) = Ok changed.
Proof.
  unfold diff_schemas. intros Hd. inv_bind Hd. by injection Hd as <- <- <-.
Qed.

(** The schema differ always returns. *)
Lemma diff_schemas_total (baseline current : gmap string schema) :
  ∃ added removed changed, diff_schemas baseline current = Ok (added, removed, changed).
Proof.
  unfold diff_schemas.
  destruct (foldM_step_total _ _ _ _ (diff_schema_step_eq baseline current)
              (py_sort String.ltb (elements (dom baseline ∩ dom current))) [])
    as [changed ->]; [|simpl; by do 3 eexists].
  intros name Hin.
  rewrite elem_of_py_sort, elem_of_elements, elem_of_intersection, !elem_of_dom in Hin.
  destruct Hin as [[old Ho] [new Hn]].
  exists (schema_diffs old new), old, new. by split_and!.
Qed.

Lemma schema_diffs_nil old new :
  schema_diffs old new = [] ↔
    (list_to_set (properties old) : gset string) = list_to_set (properties new) ∧
    py_ne (JArr (required old)) (JArr (required new)) = false.
Proof.
  unfold schema_diffs.
  set (X := list_to_set (properties old) : gset string).
  set (Y := list_to_set (properties new) : gset string).
  rewrite <- (difference_both_empty X Y).
  destruct (decide (Y ∖ X = ∅)), (decide (X ∖ Y = ∅)),
    (py_ne (JArr (required old)) (JArr (required new))); simpl;
    split; try done; intros [[] ?]; done.
Qed.

Lemma schema_diffs_swap old new :
  schema_diffs old new = [] ↔ schema_diffs new old = [].
Proof.
  rewrite !schema_diffs_nil, (py_ne_sym (JArr (required new))).
  split; intros [-> ?]; done.
Qed.

(** *** Swapping baseline and current *)

Section diff_loop_swap.
Context {K V : Type} `{Countable K}.
Context (baseline current : gmap K V) (diffs_of : V → V → result (list change)).
Context (step step' : list (K * list change) → K → result (list (K * list change))).
Hypothesis step_eq : ∀ changed key,
  step changed key =
    old ← py_index baseline key;
    new ← py_index current key;
    diffs ← diffs_of old new;
    Ok (match diffs with [] => changed | _ :: _ => changed ++ [(key, diffs)] end).
Hypothesis step'_eq : ∀ changed key,
  step' changed key =
    old ← py_index current key;
    new ← py_index baseline key;
    diffs ← diffs_of old new;
    Ok (match diffs with [] => changed | _ :: _ => changed ++ [(key, diffs)] end).
Hypothesis diffs_of_swap : ∀ old new diffs,
  diffs_of old new = Ok diffs →
  ∃ diffs', diffs_of new old = Ok diffs' ∧ (diffs = [] ↔ diffs' = []).

Lemma foldM_step_swap keys changed changed' out :
  changed'.*1 = changed.*1 →
  foldM step changed keys = Ok out →
  ∃ out', foldM step' changed' keys = Ok out' ∧ out'.*1 = out.*1.
Proof.
  revert changed changed'. induction keys as [|k keys IH]; intros changed changed' Heq Hf.
  { simpl in *. injection Hf as <-. by exists changed'. }
  simpl in Hf. inv_bind Hf.
  apply (step_Ok _ _ _ _ step_eq) in Ha as (diffs & (old & new & Ho & Hn & Hd) & ->).
  destruct (diffs_of_swap _ _ _ Hd) as (diffs' & Hd' & Hnil).
  simpl. rewrite (key_diffs_step _ _ _ _ step'_eq _ _ diffs') by (by exists new, old).
  simpl. eapply IH; [|done].
  destruct diffs as [|c d], diffs' as [|c' d']; try done.
  - discriminate (proj1 Hnil eq_refl).
  - discriminate (proj2 Hnil eq_refl).
  - by rewrite !fmap_app, Heq.
Qed.
End diff_loop_swap.

(** ** Symmetry of the differs *)

(** C7.  Diffing A against B and B against A gives the added and removed
    collections swapped and the same changed keys, for endpoint mappings
    and for schema mappings. *)
Theorem diff_swap_sides :
  (∀ (A B : gmap (string * string) endpoint) added removed changed,
     diff_endpoints A B = Ok (added, removed, changed) →
     ∃ changed', diff_endpoints B A = Ok (removed, added, changed') ∧
       changed'.*1 = changed.*1) ∧
  (∀ (A B : gmap string schema) added removed changed,
     diff_schemas A B = Ok (added, removed, changed) →
     ∃ changed', diff_schemas B A = Ok (removed, added, changed') ∧
       changed'.*1 = changed.*1).
Proof.
  split.
  - intros A B added removed changed (-> & -> & Hf)%diff_endpoints_Ok.
    destruct (foldM_step_swap A B endpoint_diffs _ _
                (diff_endpoint_step_eq A B) (diff_endpoint_step_eq B A)
                endpoint_diffs_swap _ [] [] _ eq_refl Hf) as (changed' & Hf' & Heq).
    exists changed'. split; [|done].
    unfold diff_endpoints.
    assert (dom B ∩ dom A = dom A ∩ dom B) as ->
      by (apply set_eq; intros x; rewrite !elem_of_intersection; tauto).
    by rewrite Hf'.
  - intros A B added removed changed (-> & -> & Hf)%diff_schemas_Ok.
    destruct (foldM_step_swap A B (λ old new, Ok (schema_diffs old new)) _ _
                (diff_schema_step_eq A B) (diff_schema_step_eq B A))
      with (keys := py_sort String.ltb (elements (dom A ∩ dom B)))
           (changed := @nil (string * list change))
           (changed' := @nil (string * list change)) (out := changed)
      as (changed' & Hf' & Heq); [|done..|].
    { intros old new diffs [= <-]. eexists. split; [done|]. apply schema_diffs_swap. }
    exists changed'. split; [|done].
    unfold diff_schemas.
    assert (dom B ∩ dom A = dom A ∩ dom B) as ->
      by (apply set_eq; intros x; rewrite !elem_of_intersection; tauto).
    by rewrite Hf'.
Qed.

Lemma diff_swap_sides_witness :
  ∃ changed',
    diff_endpoints (boards_endpoints "List all boards") (boards_endpoints "List boards")
      = Ok ([], [], changed') ∧
    changed'.*1 =
      [("GET", "/boards",
        [SummaryChanged (JStr "List boards") (JStr "List all boards")])].*1.
Proof.
  apply (proj1 diff_swap_sides
           (boards_endpoints "List boards") (boards_endpoints "List all boards")).
  vm_refl.
Defined.

(** ** Changed entries carry descriptions *)

(** C10.  Every entry of the changed collection of either differ carries
    at least one change description. *)
Theorem changed_entries_nonempty :
  (∀ (baseline current : gmap (string * string) endpoint) added removed changed key diffs,
     diff_endpoints baseline current = Ok (added, removed, changed) →
     (key, diffs) ∈ changed → diffs ≠ []) ∧
  (∀ (baseline current : gmap string schema) added removed changed name diffs,
     diff_schemas baseline current = Ok (added, removed, changed) →
     (name, diffs) ∈ changed → diffs ≠ []).
Proof.
  split.
  - intros baseline current added removed changed key diffs (_ & _ & Hf)%diff_endpoints_Ok.
    rewrite (foldM_step_elem _ _ _ _ (diff_endpoint_step_eq baseline current) _ _ _ Hf).
    by intros [?%elem_of_nil|(_ & ? & _)].
  - intros baseline current added removed changed name diffs (_ & _ & Hf)%diff_schemas_Ok.
    rewrite (foldM_step_elem _ _ _ _ (diff_schema_step_eq baseline current) _ _ _ Hf).
    by intros [?%elem_of_nil|(_ & ? & _)].
Qed.

Lemma changed_entries_nonempty_witness :
  [SummaryChanged (JStr "List boards") (JStr "List all boards")] ≠ [].
Proof.
  apply (proj1 changed_entries_nonempty
           (boards_endpoints "List boards") (boards_endpoints "List all boards") [] []
           [("GET", "/boards",
             [SummaryChanged (JStr "List boards") (JStr "List all boards")])]
           ("GET", "/boards")).
  - vm_refl.
  - by left.
Defined.

(** ** Parameters without a name *)

(** C9.  A parameter without a [name] field is extracted with the name
    [None].  When two endpoint records have the same named parameters and
    each has at least one unnamed parameter, however many, the comparison
    yields no new-parameter and no removed-parameter description (and it
    does return, as long as every name is a hashable value). *)
Theorem unnamed_parameters_collapse :
  (∀ fields, dict_get "name" fields = None →
     ∃ prm, build_param (JObj fields) = Ok prm ∧ p_name prm = JNull) ∧
  (∀ old new : endpoint,
     JNull ∈ p_name <$> parameters old →
     JNull ∈ p_name <$> parameters new →
     (∀ n, n ≠ JNull →
        n ∈ p_name <$> parameters old ↔ n ∈ p_name <$> parameters new) →
     (∀ diffs, endpoint_diffs old new = Ok diffs →
        ∀ names, (NewParams names ∉ diffs) ∧ (RemovedParams names ∉ diffs)) ∧
     (Forall (λ n, is_ok (py_hashable n)) (p_name <$> parameters old) →
      Forall (λ n, is_ok (py_hashable n)) (p_name <$> parameters new) →
      ∃ diffs, endpoint_diffs old new = Ok diffs)).
Proof.
  split.
  { intros fields Hname. unfold build_param. simpl. rewrite Hname. by eexists. }
  intros old new Hold Hnew Hnamed.
  assert (∀ n, n ∈ p_name <$> parameters old ↔ n ∈ p_name <$> parameters new) as Hsame.
  { intros n. destruct n; try (by apply Hnamed). by split. }
  assert (∀ so sn, param_names (parameters old) = Ok so →
            param_names (parameters new) = Ok sn → so = sn) as Hsets.
  { intros so sn Hso Hsn. apply set_eq. intros k.
    rewrite (elem_of_param_names _ _ _ Hso), (elem_of_param_names _ _ _ Hsn).
    by setoid_rewrite Hsame. }
  split.
  - intros diffs (so & sn & da & dr & Hso & Hsn & Ha & Hr & ->)%endpoint_diffs_Ok names.
    rewrite (Hsets _ _ Hso Hsn), difference_diag_L in Ha, Hr.
    injection Ha as <-. injection Hr as <-.
    rewrite !elem_of_app, elem_of_nil.
    destruct (py_ne (summary old) (summary new)),
      (py_ne (deprecated old) (deprecated new)), (py_ne (tags old) (tags new));
      rewrite ?list_elem_of_singleton, ?elem_of_nil; split; intros H; by decompose [or] H.
  - intros Hho Hhn. unfold endpoint_diffs, param_names.
    rewrite Forall_fmap in Hho, Hhn.
    apply (mapM_total (λ p, py_hashable (p_name p))) in Hho as [ko Hko].
    apply (mapM_total (λ p, py_hashable (p_name p))) in Hhn as [kn Hkn].
    rewrite Hko, Hkn. simpl.
    assert ((list_to_set ko : gset pykey) = list_to_set kn) as ->.
    { apply Hsets; unfold param_names; [by rewrite Hko|by rewrite Hkn]. }
    rewrite difference_diag_L. by eexists.
Qed.

Lemma unnamed_parameters_collapse_witness :
  (∀ diffs,
     endpoint_diffs
       (Endpoint (JStr "") (JStr "") (JArr []) (JBool false)
          [Param (JStr "cursor") JNull (JBool false); Param JNull JNull (JBool false)])
       (Endpoint (JStr "") (JStr "") (JArr []) (JBool false)
          [Param JNull JNull (JBool false); Param (JStr "cursor") JNull (JBool false);
           Param JNull (JStr "query") (JBool true)]) = Ok diffs →
     ∀ names, (NewParams names ∉ diffs) ∧ (RemovedParams names ∉ diffs)) ∧
  (Forall (λ n, is_ok (py_hashable n)) [JStr "cursor"; JNull] →
   Forall (λ n, is_ok (py_hashable n)) [JNull; JStr "cursor"; JNull] →
   ∃ diffs,
     endpoint_diffs
       (Endpoint (JStr "") (JStr "") (JArr []) (JBool false)
          [Param (JStr "cursor") JNull (JBool false); Param JNull JNull (JBool false)])
       (Endpoint (JStr "") (JStr "") (JArr []) (JBool false)
          [Param JNull JNull (JBool false); Param (JStr "cursor") JNull (JBool false);
           Param JNull (JStr "query") (JBool true)]) = Ok diffs).
Proof.
  apply (proj2 unnamed_parameters_collapse
    (Endpoint (JStr "") (JStr "") (JArr []) (JBool false)
       [Param (JStr "cursor") JNull (JBool false); Param JNull JNull (JBool false)])
    (Endpoint (JStr "") (JStr "") (JArr []) (JBool false)
       [Param JNull JNull (JBool false); Param (JStr "cursor") JNull (JBool false);
        Param JNull (JStr "query") (JBool true)])).
  - simpl. rewrite !elem_of_cons. tauto.
  - simpl. rewrite !elem_of_cons. tauto.
  - intros n Hn. simpl. rewrite !elem_of_cons, !elem_of_nil. tauto.
Defined.

(** *** Facts about the stored [required] lists *)

Lemma insert_by_fmap {A B} (f : A → B) (ltA : A → A → bool) (ltB : B → B → bool) x l :
  (∀ a b, ltB (f a) (f b) = ltA a b) →
  insert_by ltB (f x) (f <$> l) = f <$> insert_by ltA x l.
Proof.
  intros Hlt. induction l as [|y l IH]; simpl; [done|].
  rewrite Hlt. destruct (ltA y x); [|done].
  change (f y :: insert_by ltB (f x) (f <$> l) = f y :: (f <$> insert_by ltA x l)).
  by rewrite IH.
Qed.

Lemma py_sort_fmap {A B} (f : A → B) (ltA : A → A → bool) (ltB : B → B → bool) l :
  (∀ a b, ltB (f a) (f b) = ltA a b) →
  py_sort ltB (f <$> l) = f <$> py_sort ltA l.
Proof.
  intros Hlt. unfold py_sort. induction l as [|x l IH]; [done|].
  change (insert_by ltB (f x) (foldr (insert_by ltB) [] (f <$> l)) =
          f <$> insert_by ltA x (foldr (insert_by ltA) [] l)).
  rewrite IH. by apply insert_by_fmap.
Qed.

Lemma all_strings (items : list json) :
  Forall (λ x, ∃ s, x = JStr s) items → ∃ l, items = JStr <$> l.
Proof.
  induction 1 as [|x items [s ->] _ [l ->]]; [by exists []|by exists (s :: l)].
Qed.

#[local] Instance JStr_inj : Inj (=) (=) JStr.
Proof. by intros s t [=]. Qed.

(** A sorted list that holds only strings is in the order of the strings. *)
Lemma py_sorted_strings items (out : list string) :
  py_sorted py_lt items = Ok (JStr <$> out) → Sorted String.le out.
Proof.
  intros Hs. pose proof (py_sorted_perm _ _ _ Hs) as Hperm.
  destruct (all_strings items) as [l ->].
  { rewrite <- Hperm. apply Forall_fmap, Forall_true. intros s. by exists s. }
  unfold py_sorted in Hs. destruct (orderable py_lt (JStr <$> l)); [|done].
  injection Hs as Hs. rewrite (py_sort_fmap JStr String.ltb) in Hs by done.
  apply (inj (fmap JStr)) in Hs as <-. apply py_sort_strings_sorted.
Qed.

Lemma foldM_extract_schema ss acc out name sch :
  foldM extract_schema acc ss = Ok out →
  out !! name = Some sch →
  acc !! name = Some sch ∨ ∃ items, py_sorted py_lt items = Ok (required sch).
Proof.
  revert acc. induction ss as [|[n0 s0] ss IH]; intros acc Hf Hl.
  { simpl in Hf. injection Hf as <-. by left. }
  simpl in Hf. inv_bind Hf. destruct (IH _ Hf Hl) as [Ha'|?]; [|by right].
  unfold extract_schema in Ha. inv_bind Ha. injection Ha as <-.
  destruct (decide (n0 = name)) as [->|Hne].
  - rewrite lookup_insert_eq in Ha'. injection Ha' as <-. right. by exists a3.
  - rewrite lookup_insert_ne in Ha' by done. by left.
Qed.

(** Extraction stores every [required] list sorted. *)
Lemma extract_schemas_required_sorted spec schemas name sch :
  extract_schemas spec = Ok schemas →
  schemas !! name = Some sch →
  ∃ items, py_sorted py_lt items = Ok (required sch).
Proof.
  unfold extract_schemas. intros He Hl. inv_bind He.
  destruct (foldM_extract_schema _ _ _ _ _ He Hl) as [Hempty|?]; [|done].
  by rewrite lookup_empty in Hempty.
Qed.

Lemma elem_of_schema_diffs_required old new o n :
  RequiredChanged o n ∈ schema_diffs old new ↔
  py_ne (JArr (required old)) (JArr (required new)) = true ∧
  o = required old ∧ n = required new.
Proof.
  unfold schema_diffs. rewrite !elem_of_app.
  destruct (decide (_ = ∅)), (decide (_ = ∅)),
    (py_ne (JArr (required old)) (JArr (required new)));
    rewrite ?list_elem_of_singleton, ?elem_of_nil; split;
    try (intros H; decompose [or and] H; by simplify_eq);
    intros (_ & -> & ->); tauto.
Qed.

Lemma py_ne_strings (l1 l2 : list string) :
  py_ne (JArr (JStr <$> l1)) (JArr (JStr <$> l2)) = true ↔ l1 ≠ l2.
Proof.
  unfold py_ne. rewrite negb_true_iff, <- not_true_iff_false. by rewrite py_eq_strings.
Qed.

(** ** The required-list check of the schema differ *)

(** Two [required] lists with the same entries as sets, one of them with a
    repeated entry: both are stored sorted, and a change is reported. *)
Lemma duplicate_required_reported :
  extract_schemas (board_schema_doc ["id"; "id"])
    = Ok {[ "Board" := Schema [] [JStr "id"; JStr "id"] ]} ∧
  extract_schemas (board_schema_doc ["id"])
    = Ok {[ "Board" := Schema [] [JStr "id"] ]} ∧
  diff_schemas {[ "Board" := Schema [] [JStr "id"; JStr "id"] ]}
               {[ "Board" := Schema [] [JStr "id"] ]}
    = Ok ([], [], [("Board", [RequiredChanged [JStr "id"; JStr "id"] [JStr "id"]])]) ∧
  (list_to_set ["id"; "id"] : gset string) = list_to_set ["id"].
Proof. split_and!; vm_refl. Qed.

(** C8, amended.  For a schema name present in both extracted mappings,
    the schema diff reports a required-list change exactly when the two
    stored [required] sequences are unequal.  Because extraction sorts
    both lists, for lists of property names this is the same as the two
    lists being unequal as multisets, and, when neither list repeats an
    entry, the same as the two required sets being unequal. *)
Theorem required_change_reported
    (base cur : json) (sb sc : gmap string schema) (name : string) (old new : schema) :
  extract_schemas base = Ok sb →
  extract_schemas cur = Ok sc →
  sb !! name = Some old →
  sc !! name = Some new →
  ∃ added removed changed,
    diff_schemas sb sc = Ok (added, removed, changed) ∧
    ((∃ diffs o n, (name, diffs) ∈ changed ∧ RequiredChanged o n ∈ diffs) ↔
       py_ne (JArr (required old)) (JArr (required new)) = true) ∧
    (∀ ro rn : list string,
       required old = JStr <$> ro → required new = JStr <$> rn →
       (py_ne (JArr (required old)) (JArr (required new)) = true ↔ ¬ ro ≡ₚ rn) ∧
       (NoDup ro → NoDup rn →
        (py_ne (JArr (required old)) (JArr (required new)) = true ↔
           (list_to_set ro : gset string) ≠ list_to_set rn))).
Proof.
  intros Hb Hc Ho Hn.
  destruct (diff_schemas_total sb sc) as (added & removed & changed & Hd).
  exists added, removed, changed. split; [done|].
  apply diff_schemas_Ok in Hd as (_ & _ & Hf). split.
  - setoid_rewrite (foldM_step_elem _ _ _ _ (diff_schema_step_eq sb sc) _ _ _ Hf).
    split.
    + intros (diffs & o & n & [?%elem_of_nil|(_ & _ & Hk)] & Hin); [done|].
      destruct Hk as (old' & new' & Ho' & Hn' & [= <-]).
      assert (old' = old) as -> by congruence. assert (new' = new) as -> by congruence.
      by apply elem_of_schema_diffs_required in Hin as [? _].
    + intros Hne.
      assert (RequiredChanged (required old) (required new) ∈ schema_diffs old new) as Hin
        by (by apply elem_of_schema_diffs_required).
      exists (schema_diffs old new), (required old), (required new).
      split; [|done]. right. split_and!.
      * rewrite elem_of_py_sort, elem_of_elements, elem_of_intersection, !elem_of_dom.
        by rewrite Ho, Hn.
      * intros Hnil. rewrite Hnil in Hin. by apply elem_of_nil in Hin.
      * by exists old, new.
  - intros ro rn Hro Hrn.
    destruct (extract_schemas_required_sorted _ _ _ _ Hb Ho) as [io Hio].
    destruct (extract_schemas_required_sorted _ _ _ _ Hc Hn) as [inw Hin].
    rewrite Hro in Hio |- *. rewrite Hrn in Hin |- *.
    apply py_sorted_strings in Hio, Hin. rewrite py_ne_strings.
    assert (ro = rn ↔ ro ≡ₚ rn) as Hperm.
    { split; [by intros ->|]. by apply sorted_strings_unique. }
    split; [by rewrite Hperm|]. intros Hndo Hndn. rewrite Hperm.
    split; intros Hne Heq; apply Hne.
    + apply NoDup_Permutation; [done..|]. intros x.
      by rewrite <- !(elem_of_list_to_set (C:=gset string)), Heq.
    + apply set_eq. intros x. by rewrite !elem_of_list_to_set, Heq.
Qed.

Lemma required_change_reported_witness :
  ∃ added removed changed,
    diff_schemas {[ "Board" := Schema [] [JStr "id"] ]}
                 {[ "Board" := Schema [] [JStr "id"; JStr "name"] ]}
      = Ok (added, removed, changed) ∧
    ((∃ diffs o n, ("Board", diffs) ∈ changed ∧ RequiredChanged o n ∈ diffs) ↔
       py_ne (JArr (required (Schema [] [JStr "id"])))
             (JArr (required (Schema [] [JStr "id"; JStr "name"]))) = true) ∧
    (∀ ro rn : list string,
       required (Schema [] [JStr "id"]) = JStr <$> ro →
       required (Schema [] [JStr "id"; JStr "name"]) = JStr <$> rn →
       (py_ne (JArr (required (Schema [] [JStr "id"])))
              (JArr (required (Schema [] [JStr "id"; JStr "name"]))) = true ↔ ¬ ro ≡ₚ rn) ∧
       (NoDup ro → NoDup rn →
        (py_ne (JArr (required (Schema [] [JStr "id"])))
               (JArr (required (Schema [] [JStr "id"; JStr "name"]))) = true ↔
           (list_to_set ro : gset string) ≠ list_to_set rn))).
Proof.
  apply (required_change_reported
           (board_schema_doc ["id"]) (board_schema_doc ["name"; "id"])
           {[ "Board" := Schema [] [JStr "id"] ]}
           {[ "Board" := Schema [] [JStr "id"; JStr "name"] ]} "Board").
  - vm_refl.
  - vm_refl.
  - vm_refl.
  - vm_refl.
Defined.

(** *** Facts about the reporter *)

(** The reporter only looks up keys that the differ took from the mapping
    it is given, so it returns. *)
Lemma format_report_total (py_str : json → string) (describe : change → string)
    (ea er : list (string * string)) (ec : list (string * string * list change))
    (sa sr : list string) (sc : list (string * list change))
    (current baseline : gmap (string * string) endpoint) :
  (∀ key, key ∈ ea → is_Some (current !! key)) →
  (∀ key, key ∈ er → is_Some (baseline !! key)) →
  ∃ report,
    format_report py_str describe ea er ec sa sr sc current baseline = Ok report.
Proof.
  intros Hea Her. unfold format_report.
  destruct (decide _); [by eexists|].
  assert (∃ rows, mapM (λ '(method, path),
            info ← py_index current (method, path);
            Ok (categorize_endpoint method path, (method, path, info))) ea = Ok rows)
    as [rows Hrows].
  { apply mapM_total, Forall_forall. intros [m p] Hin.
    destruct (Hea _ Hin) as [info Hi]. unfold py_index. by rewrite Hi. }
  assert (∃ rows, mapM (λ '(method, path),
            info ← py_index baseline (method, path);
            Ok (table_row py_str method path info)) er = Ok rows)
    as [rrows Hrrows].
  { apply mapM_total, Forall_forall. intros [m p] Hin.
    destruct (Her _ Hin) as [info Hi]. unfold py_index. by rewrite Hi. }
  rewrite Hrows, Hrrows. destruct ea, er; simpl; by eexists.
Qed.

Lemma diff_endpoints_keys baseline current added removed changed :
  diff_endpoints baseline current = Ok (added, removed, changed) →
  (∀ key, key ∈ added → is_Some (current !! key)) ∧
  (∀ key, key ∈ removed → is_Some (baseline !! key)).
Proof.
  intros (-> & -> & _)%diff_endpoints_Ok.
  split; intros key; rewrite elem_of_py_sort, elem_of_elements, elem_of_difference,
    !elem_of_dom; tauto.
Qed.

(** *** No change means identical on the tracked fields *)

Lemma py_sort_nil {A} (ltb : A → A → bool) l : py_sort ltb l = [] ↔ l = [].
Proof.
  split; [|by intros ->]. intros Hs.
  apply Permutation_nil_r. by rewrite <- (py_sort_perm ltb l), Hs.
Qed.

Lemma sorted_elements_nil {K} `{Countable K} (ltb : K → K → bool) (X : gset K) :
  py_sort ltb (elements X) = [] ↔ X = ∅.
Proof. by rewrite py_sort_nil, elements_empty_iff, leibniz_equiv_iff. Qed.

Lemma endpoint_diffs_identical old new diffs :
  endpoint_diffs old new = Ok diffs → diffs = [] ↔ identical_endpoints old new.
Proof.
  intros Hd. unfold identical_endpoints.
  destruct (endpoint_diffs_Ok _ _ _ Hd) as (so & sn & _ & _ & Hso & Hsn & _).
  rewrite (endpoint_diffs_nil _ _ _ _ _ Hd Hso Hsn), Hso, Hsn.
  unfold py_ne. rewrite !negb_false_iff.
  split; intros (? & ? & ? & ?); split_and!; congruence.
Qed.

Lemma schema_diffs_identical old new :
  schema_diffs old new = [] ↔ identical_schemas old new.
Proof.
  unfold identical_schemas. rewrite schema_diffs_nil. unfold py_ne.
  by rewrite negb_false_iff.
Qed.

Lemma diff_endpoints_empty_iff baseline current added removed changed :
  diff_endpoints baseline current = Ok (added, removed, changed) →
  added = [] ∧ removed = [] ∧ changed = [] ↔
  identical_mappings identical_endpoints baseline current.
Proof.
  intros Hd. pose proof Hd as (-> & -> & Hf)%diff_endpoints_Ok.
  unfold identical_mappings.
  rewrite !sorted_elements_nil, <- (difference_both_empty (dom baseline) (dom current)).
  split.
  - intros (? & ? & ->). split; [done|]. intros key old new Ho Hn.
    destruct (diff_endpoints_changed_key _ _ _ _ _ _ _ _ Hd Ho Hn) as (diffs & Hdiffs & Hkey).
    apply (endpoint_diffs_identical _ _ _ Hdiffs).
    destruct diffs; [done|]. by apply proj2, elem_of_nil in Hkey.
  - intros [[? ?] Hsame]. split_and!; [done..|].
    destruct changed as [|[key diffs] changed]; [done|]. exfalso.
    assert ((key, diffs) ∈ (key, diffs) :: changed) as Hin by left.
    apply (foldM_step_elem _ _ _ _ (diff_endpoint_step_eq baseline current) _ _ _ Hf)
      in Hin as [?%elem_of_nil|(_ & Hne & old & new & Ho & Hn & Hdiffs)]; [done|].
    apply Hne, (endpoint_diffs_identical _ _ _ Hdiffs). eauto.
Qed.

Lemma diff_schemas_empty_iff baseline current added removed changed :
  diff_schemas baseline current = Ok (added, removed, changed) →
  added = [] ∧ removed = [] ∧ changed = [] ↔
  identical_mappings identical_schemas baseline current.
Proof.
  intros (-> & -> & Hf)%diff_schemas_Ok. unfold identical_mappings.
  rewrite !sorted_elements_nil, <- (difference_both_empty (dom baseline) (dom current)).
  pose proof (foldM_step_elem _ _ _ _ (diff_schema_step_eq baseline current) _ _ _ Hf)
    as Helem.
  split.
  - intros (? & ? & ->). split; [done|]. intros name old new Ho Hn.
    apply schema_diffs_identical.
    destruct (schema_diffs old new) as [|c d] eqn:Hd; [done|]. exfalso.
    eapply elem_of_nil, (Helem name (c :: d)). right. split_and!; [|done|].
    + rewrite elem_of_py_sort, elem_of_elements, elem_of_intersection, !elem_of_dom.
      by rewrite Ho, Hn.
    + exists old, new. by rewrite Hd.
  - intros [[? ?] Hsame]. split_and!; [done..|].
    destruct changed as [|[name diffs] changed]; [done|]. exfalso.
    assert ((name, diffs) ∈ (name, diffs) :: changed) as Hin by left.
    apply Helem in Hin as [?%elem_of_nil|(_ & Hne & old & new & Ho & Hn & [= Hd])];
      [done|].
    apply Hne. rewrite <- Hd. apply schema_diffs_identical. eauto.
Qed.

(** ** The exit status *)

(** C2.  For two documents that load and whose extraction and diff
    produce the six collections, the program prints the report and exits
    with status 0 exactly when all six collections are empty, and with
    status 1 exactly when at least one of them is not.  The six
    collections are empty exactly when the two extracted endpoint mappings
    and the two extracted schema mappings are identical on the tracked
    fields. *)
Theorem main_exit_status (py_str : json → string) (describe : change → string)
    (prog bpath cpath : string)
    (load : string → result json) (bspec cspec : json)
    (be ce : gmap (string * string) endpoint) (bs cs : gmap string schema)
    (ea er : list (string * string)) (ec : list (string * string * list change))
    (sa sr : list string) (sc : list (string * list change)) :
  load bpath = Ok bspec →
  load cpath = Ok cspec →
  extract_endpoints bspec = Ok be →
  extract_endpoints cspec = Ok ce →
  extract_schemas bspec = Ok bs →
  extract_schemas cspec = Ok cs →
  diff_endpoints be ce = Ok (ea, er, ec) →
  diff_schemas bs cs = Ok (sa, sr, sc) →
  ∃ report code,
    main py_str describe [prog; bpath; cpath] load = Run [report] [] (Exited code) ∧
    (code = 0 ↔ ea = [] ∧ er = [] ∧ ec = [] ∧ sa = [] ∧ sr = [] ∧ sc = []) ∧
    (code = 1 ↔ ea ≠ [] ∨ er ≠ [] ∨ ec ≠ [] ∨ sa ≠ [] ∨ sr ≠ [] ∨ sc ≠ []) ∧
    (ea = [] ∧ er = [] ∧ ec = [] ∧ sa = [] ∧ sr = [] ∧ sc = [] ↔
       identical_mappings identical_endpoints be ce ∧
       identical_mappings identical_schemas bs cs).
Proof.
  intros Hlb Hlc Hbe Hce Hbs Hcs Hde Hds.
  destruct (diff_endpoints_keys _ _ _ _ _ Hde) as [Hea Her].
  destruct (format_report_total py_str describe ea er ec sa sr sc ce be Hea Her)
    as [report Hreport].
  unfold main, compare. rewrite Hlb, Hlc. simpl.
  rewrite Hbe, Hce. simpl. rewrite Hbs, Hcs. simpl. rewrite Hde. simpl.
  rewrite Hds. simpl. rewrite Hreport. simpl.
  eexists _, _. split; [done|].
  rewrite <- (diff_endpoints_empty_iff _ _ _ _ _ Hde),
    <- (diff_schemas_empty_iff _ _ _ _ _ Hds).
  split_and!; [| |tauto].
  - destruct (decide _) as [Hpos|Hzero]; split; try done.
    + intros (-> & -> & -> & -> & -> & ->). simpl in Hpos. lia.
    + intros _. destruct ea, er, ec, sa, sr, sc; simpl in Hzero; by try lia.
  - destruct (decide _) as [Hpos|Hzero]; split; try done.
    + intros _. destruct ea; [|by left]. destruct er; [|by right; left].
      destruct ec; [|by right; right; left]. destruct sa; [|by right; right; right; left].
      destruct sr; [|by right; right; right; right; left].
      destruct sc; [|by right; right; right; right; right]. simpl in Hpos. lia.
    + intros Hne. destruct ea, er, ec, sa, sr, sc; simpl in Hzero; try lia.
      by decompose [or] Hne.
Qed.

Lemma main_exit_status_witness :
  ∃ report code,
    main (λ _, "") (λ _, "") ["diff-spec.py"; "baseline.json"; "current.json"] sample_load
      = Run [report] [] (Exited code) ∧
    (code = 0 ↔
       @nil (string * string) = [] ∧ @nil (string * string) = [] ∧
       [("GET", "/boards",
         [SummaryChanged (JStr "List boards") (JStr "List all boards")])] = [] ∧
       @nil string = [] ∧ @nil string = [] ∧ @nil (string * list change) = []) ∧
    (code = 1 ↔
       @nil (string * string) ≠ [] ∨ @nil (string * string) ≠ [] ∨
       [("GET", "/boards",
         [SummaryChanged (JStr "List boards") (JStr "List all boards")])] ≠ [] ∨
       @nil string ≠ [] ∨ @nil string ≠ [] ∨ @nil (string * list change) ≠ []) ∧
    (@nil (string * string) = [] ∧ @nil (string * string) = [] ∧
     [("GET", "/boards",
       [SummaryChanged (JStr "List boards") (JStr "List all boards")])] = [] ∧
     @nil string = [] ∧ @nil string = [] ∧ @nil (string * list change) = [] ↔
       identical_mappings identical_endpoints
         (boards_endpoints "List boards") (boards_endpoints "List all boards") ∧
       identical_mappings identical_schemas (∅ : gmap string schema) ∅).
Proof.
  apply (main_exit_status (λ _, "") (λ _, "") "diff-spec.py" "baseline.json" "current.json"
           sample_load (boards_doc "List boards") (boards_doc "List all boards")).
  - reflexivity.
  - reflexivity.
  - vm_refl.
  - vm_refl.
  - vm_refl.
  - vm_refl.
  - vm_refl.
  - vm_refl.
Defined.

(** * Further properties of the differs *)

(** *** Strictly increasing output of [sorted] *)

Section strict_sort.
Context {A : Type} (ltb : A → A → bool).
Hypothesis ltb_trans : ∀ a b c, ltb a b = true → ltb b c = true → ltb a c = true.
Hypothesis ltb_trichotomy : ∀ a b, a ≠ b → ltb a b = false → ltb b a = true.

Lemma insert_by_increasing x l :
  StronglySorted (λ a b, ltb a b = true) l → x ∉ l →
  StronglySorted (λ a b, ltb a b = true) (insert_by ltb x l).
Proof.
  induction 1 as [|y l Hl IH Hy]; intros Hx; simpl.
  { by repeat constructor. }
  apply not_elem_of_cons in Hx as [Hxy Hx].
  destruct (ltb y x) eqn:Hyx.
  - constructor; [by apply IH|]. rewrite insert_by_perm. by constructor.
  - assert (ltb x y = true) as Hlt by (by apply ltb_trichotomy).
    repeat constructor; [done..|].
    eapply Forall_impl; [exact Hy|]. intros z. by apply ltb_trans.
Qed.

Lemma py_sort_increasing l :
  NoDup l → StronglySorted (λ a b, ltb a b = true) (py_sort ltb l).
Proof.
  induction 1 as [|x l Hx _ IH]; [constructor|].
  apply insert_by_increasing; [done|].
  change (x ∉ py_sort ltb l). by rewrite elem_of_py_sort.
Qed.

Lemma increasing_sublist l1 l2 :
  l1 `sublist_of` l2 →
  StronglySorted (λ a b, ltb a b = true) l2 →
  StronglySorted (λ a b, ltb a b = true) l1.
Proof.
  induction 1 as [|x l1 l2 Hsub IH|x l1 l2 Hsub IH]; intros Hs.
  - constructor.
  - apply StronglySorted_inv in Hs as [Hs Hx]. constructor; [by apply IH|].
    rewrite Forall_forall in Hx |- *. intros y Hy. apply Hx.
    by eapply elem_of_sublist.
  - apply StronglySorted_inv in Hs as [Hs _]. by apply IH.
Qed.
End strict_sort.

Lemma string_ltb_spec (s t : string) : String.ltb s t = true ↔ String.le s t ∧ s ≠ t.
Proof.
  unfold String.le, String.leb, String.ltb.
  destruct (String.compare s t) eqn:Hc.
  - apply String.compare_eq_iff in Hc as ->. split; [done|]. by intros [_ []].
  - split; [|done]. intros _. split; [done|]. intros ->.
    pose proof (String.compare_antisym t t) as Ha. rewrite Hc in Ha. discriminate Ha.
  - split; [done|]. by intros [[] _].
Qed.

Lemma string_ltb_trans (a b c : string) :
  String.ltb a b = true → String.ltb b c = true → String.ltb a c = true.
Proof.
  rewrite !string_ltb_spec. intros [Hab Hne] [Hbc Hne']. split; [by etrans|].
  intros ->. apply Hne. by apply (anti_symm String.le).
Qed.

Lemma string_ltb_trichotomy (a b : string) :
  a ≠ b → String.ltb a b = false → String.ltb b a = true.
Proof.
  intros Hne Hab. apply string_ltb_spec. split; [by apply not_ltb_le|done].
Qed.

Lemma tuple_ltb_trans (a b c : string * string) :
  tuple_ltb a b = true → tuple_ltb b c = true → tuple_ltb a c = true.
Proof.
  destruct a as [a1 a2], b as [b1 b2], c as [c1 c2]. unfold tuple_ltb. simpl.
  destruct (decide (a1 = b1)) as [->|Hab], (decide (b1 = c1)) as [->|Hbc];
    rewrite ?decide_True by done; rewrite ?decide_False by done.
  - apply string_ltb_trans.
  - done.
  - done.
  - intros H1 H2. pose proof (string_ltb_trans _ _ _ H1 H2) as H3.
    destruct (decide (a1 = c1)) as [->|]; [|done].
    apply string_ltb_spec in H1 as [H1 _]. apply string_ltb_spec in H2 as [H2 _].
    destruct Hab. by apply (anti_symm String.le).
Qed.

Lemma tuple_ltb_trichotomy (a b : string * string) :
  a ≠ b → tuple_ltb a b = false → tuple_ltb b a = true.
Proof.
  destruct a as [a1 a2], b as [b1 b2]. unfold tuple_ltb. simpl. intros Hne.
  destruct (decide (a1 = b1)) as [->|Hab].
  - rewrite decide_True by done. apply string_ltb_trichotomy. congruence.
  - rewrite decide_False by done. by apply string_ltb_trichotomy.
Qed.

(** The keys that the loop appends are taken from the keys it visits, in
    the order of the visit. *)
Lemma foldM_step_keys {K V} `{Countable K} (baseline current : gmap K V)
    (diffs_of : V → V → result (list change))
    (step : list (K * list change) → K → result (list (K * list change))) :
  (∀ changed key,
     step changed key =
       old ← py_index baseline key;
       new ← py_index current key;
       diffs ← diffs_of old new;
       Ok (match diffs with [] => changed | _ :: _ => changed ++ [(key, diffs)] end)) →
  ∀ keys changed out,
    foldM step changed keys = Ok out →
    ∃ ks, out.*1 = changed.*1 ++ ks ∧ ks `sublist_of` keys.
Proof.
  intros step_eq keys. induction keys as [|k keys IH]; intros changed out Hf.
  { simpl in Hf. injection Hf as <-. exists []. by rewrite app_nil_r. }
  simpl in Hf. inv_bind Hf.
  apply (step_Ok _ _ _ _ step_eq) in Ha as (diffs & _ & ->).
  destruct (IH _ _ Hf) as (ks & -> & Hsub). destruct diffs as [|c d].
  - exists ks. split; [done|]. by constructor.
  - exists (k :: ks). rewrite fmap_app, <- app_assoc. split; [done|]. by constructor.
Qed.

(** ** Where each key of the two mappings goes *)

(** The added keys are the keys of the current mapping that the baseline
    lacks, the removed keys those of the baseline that the current mapping
    lacks, and a changed key is a key of both: the three collections never
    overlap, for endpoints and for schemas. *)
Theorem diff_collections_membership :
  (∀ (baseline current : gmap (string * string) endpoint) added removed changed key,
     diff_endpoints baseline current = Ok (added, removed, changed) →
     (key ∈ added ↔ key ∈ dom current ∧ key ∉ dom baseline) ∧
     (key ∈ removed ↔ key ∈ dom baseline ∧ key ∉ dom current) ∧
     (key ∈ changed.*1 → key ∈ dom baseline ∧ key ∈ dom current)) ∧
  (∀ (baseline current : gmap string schema) added removed changed name,
     diff_schemas baseline current = Ok (added, removed, changed) →
     (name ∈ added ↔ name ∈ dom current ∧ name ∉ dom baseline) ∧
     (name ∈ removed ↔ name ∈ dom baseline ∧ name ∉ dom current) ∧
     (name ∈ changed.*1 → name ∈ dom baseline ∧ name ∈ dom current)).
Proof.
  split.
  - intros baseline current added removed changed key (-> & -> & Hf)%diff_endpoints_Ok.
    rewrite !elem_of_py_sort, !elem_of_elements, !elem_of_difference. split_and!; [done..|].
    intros (diffs & Hin)%elem_of_changed_keys.
    apply (foldM_step_elem _ _ _ _ (diff_endpoint_step_eq baseline current) _ _ _ Hf)
      in Hin as [?%elem_of_nil|(Hkey & _)]; [done|].
    by rewrite elem_of_py_sort, elem_of_elements, elem_of_intersection in Hkey.
  - intros baseline current added removed changed name (-> & -> & Hf)%diff_schemas_Ok.
    rewrite !elem_of_py_sort, !elem_of_elements, !elem_of_difference. split_and!; [done..|].
    intros (diffs & Hin)%elem_of_changed_keys.
    apply (foldM_step_elem _ _ _ _ (diff_schema_step_eq baseline current) _ _ _ Hf)
      in Hin as [?%elem_of_nil|(Hkey & _)]; [done|].
    by rewrite elem_of_py_sort, elem_of_elements, elem_of_intersection in Hkey.
Qed.

Lemma diff_collections_membership_witness :
  (("GET", "/boards") ∈ @nil (string * string) ↔
     ("GET", "/boards") ∈ dom (boards_endpoints "List all boards") ∧
     ("GET", "/boards") ∉ dom (boards_endpoints "List boards")) ∧
  (("GET", "/boards") ∈ @nil (string * string) ↔
     ("GET", "/boards") ∈ dom (boards_endpoints "List boards") ∧
     ("GET", "/boards") ∉ dom (boards_endpoints "List all boards")) ∧
  (("GET", "/boards") ∈
     [("GET", "/boards",
       [SummaryChanged (JStr "List boards") (JStr "List all boards")])].*1 →
   ("GET", "/boards") ∈ dom (boards_endpoints "List boards") ∧
   ("GET", "/boards") ∈ dom (boards_endpoints "List all boards")).
Proof.
  apply (proj1 diff_collections_membership
           (boards_endpoints "List boards") (boards_endpoints "List all boards")).
  vm_refl.
Defined.

(** ** The order of the collections *)

(** Each of the three collections lists its keys in strictly increasing
    order (tuples by method, then path; names as strings), so no key
    occurs twice. *)
Theorem diff_collections_increasing :
  (∀ (baseline current : gmap (string * string) endpoint) added removed changed,
     diff_endpoints baseline current = Ok (added, removed, changed) →
     StronglySorted (λ a b, tuple_ltb a b = true) added ∧
     StronglySorted (λ a b, tuple_ltb a b = true) removed ∧
     StronglySorted (λ a b, tuple_ltb a b = true) changed.*1) ∧
  (∀ (baseline current : gmap string schema) added removed changed,
     diff_schemas baseline current = Ok (added, removed, changed) →
     StronglySorted (λ a b, String.ltb a b = true) added ∧
     StronglySorted (λ a b, String.ltb a b = true) removed ∧
     StronglySorted (λ a b, String.ltb a b = true) changed.*1).
Proof.
  split.
  - intros baseline current added removed changed (-> & -> & Hf)%diff_endpoints_Ok.
    split_and!;
      try (apply py_sort_increasing;
           [apply tuple_ltb_trans|apply tuple_ltb_trichotomy|apply NoDup_elements]).
    destruct (foldM_step_keys _ _ _ _ (diff_endpoint_step_eq baseline current) _ _ _ Hf)
      as (ks & -> & Hsub).
    eapply increasing_sublist; [exact Hsub|].
    apply py_sort_increasing;
      [apply tuple_ltb_trans|apply tuple_ltb_trichotomy|apply NoDup_elements].
  - intros baseline current added removed changed (-> & -> & Hf)%diff_schemas_Ok.
    split_and!;
      try (apply py_sort_increasing;
           [apply string_ltb_trans|apply string_ltb_trichotomy|apply NoDup_elements]).
    destruct (foldM_step_keys _ _ _ _ (diff_schema_step_eq baseline current) _ _ _ Hf)
      as (ks & -> & Hsub).
    eapply increasing_sublist; [exact Hsub|].
    apply py_sort_increasing;
      [apply string_ltb_trans|apply string_ltb_trichotomy|apply NoDup_elements].
Qed.

Lemma diff_collections_increasing_witness :
  (StronglySorted (λ a b, tuple_ltb a b = true)
     [("GET", "/tags"); ("PUT", "/tags/{id}")] ∧
   StronglySorted (λ a b, tuple_ltb a b = true)
     [("DELETE", "/items/{id}"); ("GET", "/items")] ∧
   StronglySorted (λ a b, tuple_ltb a b = true)
     [("GET", "/boards", [NewParams [KStr "limit"; KStr "offset"]]);
      ("POST", "/boards",
       [SummaryChanged (JStr "Create board") (JStr "Create a board")])].*1) ∧
  (StronglySorted (λ a b, String.ltb a b = true) ["Connector"; "Tag"] ∧
   StronglySorted (λ a b, String.ltb a b = true) ["Frame"; "Widget"] ∧
   StronglySorted (λ a b, String.ltb a b = true)
     [("Board", [NewProperties ["owner"]]);
      ("Item", [RequiredChanged [JStr "id"] [JStr "id"; JStr "title"]])].*1).
Proof.
  split.
  - apply (proj1 diff_collections_increasing release1_endpoints release2_endpoints).
    vm_refl.
  - apply (proj2 diff_collections_increasing release1_schemas release2_schemas).
    vm_refl.
Defined.

(** ** A mapping against itself, and against nothing *)

Lemma endpoint_diffs_same (info : endpoint) :
  py_eq (summary info) (summary info) = true →
  py_eq (deprecated info) (deprecated info) = true →
  py_eq (tags info) (tags info) = true →
  Forall (λ n, is_ok (py_hashable n)) (p_name <$> parameters info) →
  endpoint_diffs info info = Ok [].
Proof.
  intros Hs Hd Ht Hh. unfold endpoint_diffs, param_names, py_ne. rewrite Forall_fmap in Hh.
  apply (mapM_total (λ p, py_hashable (p_name p))) in Hh as [names ->].
  simpl. rewrite difference_diag_L, Hs, Hd, Ht. reflexivity.
Qed.

Lemma list_to_map_Forall {K V} `{Countable K} (P : V → Prop) (l : list (K * V)) :
  Forall (λ kv, P kv.2) l →
  ∀ key v, (list_to_map l : gmap K V) !! key = Some v → P v.
Proof.
  intros Hl key v Hlk. apply elem_of_list_to_map_2 in Hlk.
  rewrite Forall_forall in Hl. exact (Hl (key, v) Hlk).
Qed.

(** Diffing a mapping against itself reports nothing, provided the
    summary, the deprecated flag and the tags of every record are equal to
    themselves under [==] (every string, boolean, integer, [None], list
    and mapping is; a float [NaN] is not, and the claim is not made for
    it).  Then, whenever the endpoint differ returns, its three
    collections are empty, and it does return when every parameter name is
    hashable.  The schema differ on a mapping and itself always returns
    three empty collections: it compares lists only, and the items of a
    list are compared with themselves. *)
Theorem diff_against_itself :
  (∀ (A : gmap (string * string) endpoint) added removed changed,
     (∀ key info, A !! key = Some info →
        py_eq (summary info) (summary info) = true ∧
        py_eq (deprecated info) (deprecated info) = true ∧
        py_eq (tags info) (tags info) = true) →
     diff_endpoints A A = Ok (added, removed, changed) →
     added = [] ∧ removed = [] ∧ changed = []) ∧
  (∀ A : gmap (string * string) endpoint,
     (∀ key info, A !! key = Some info →
        py_eq (summary info) (summary info) = true ∧
        py_eq (deprecated info) (deprecated info) = true ∧
        py_eq (tags info) (tags info) = true) →
     (∀ key info, A !! key = Some info →
        Forall (λ n, is_ok (py_hashable n)) (p_name <$> parameters info)) →
     diff_endpoints A A = Ok ([], [], [])) ∧
  (∀ A : gmap string schema, diff_schemas A A = Ok ([], [], [])).
Proof.
  assert (∀ (A : gmap (string * string) endpoint) added removed changed,
     (∀ key info, A !! key = Some info →
        py_eq (summary info) (summary info) = true ∧
        py_eq (deprecated info) (deprecated info) = true ∧
        py_eq (tags info) (tags info) = true) →
     diff_endpoints A A = Ok (added, removed, changed) →
     added = [] ∧ removed = [] ∧ changed = []) as Hsame.
  { intros A added removed changed Heq Hd.
    apply (diff_endpoints_empty_iff _ _ _ _ _ Hd). split; [done|].
    intros key old new Ho Hn. assert (new = old) as -> by congruence.
    destruct (Heq _ _ Ho) as (Hs & Hdp & Ht). by split_and!. }
  split_and!; [done| |].
  - intros A Heq Hnames.
    destruct (foldM_step_total _ _ _ _ (diff_endpoint_step_eq A A)
                (py_sort tuple_ltb (elements (dom A ∩ dom A))) []) as [changed Hf].
    { intros key [[info Hi] _]%elem_of_shared_keys.
      exists [], info, info. split_and!; [done..|].
      destruct (Heq _ _ Hi) as (Hs & Hdp & Ht). apply endpoint_diffs_same; eauto. }
    assert (∃ added removed, diff_endpoints A A = Ok (added, removed, changed))
      as (added & removed & Hd).
    { unfold diff_endpoints. rewrite Hf. by do 2 eexists. }
    by destruct (Hsame _ _ _ _ Heq Hd) as (-> & -> & ->).
  - intros A. destruct (diff_schemas_total A A) as (added & removed & changed & Hd).
    rewrite Hd. f_equal.
    assert (added = [] ∧ removed = [] ∧ changed = []) as (-> & -> & ->); [|done].
    apply (diff_schemas_empty_iff _ _ _ _ _ Hd). split; [done|].
    intros name old new Ho Hn. assert (new = old) as -> by congruence.
    unfold identical_schemas. by rewrite py_eq_refl.
Qed.

Lemma diff_against_itself_witness :
  diff_endpoints release2_endpoints release2_endpoints = Ok ([], [], []).
Proof.
  apply (proj1 (proj2 diff_against_itself) release2_endpoints).
  - apply (list_to_map_Forall
             (λ info, py_eq (summary info) (summary info) = true ∧
                      py_eq (deprecated info) (deprecated info) = true ∧
                      py_eq (tags info) (tags info) = true)).
    repeat constructor.
  - apply (list_to_map_Forall
             (λ info, Forall (λ n, is_ok (py_hashable n)) (p_name <$> parameters info))).
    repeat constructor.
Defined.

Lemma intersection_empty_left {K} `{Countable K} (X : gset K) : ∅ ∩ X = ∅.
Proof.
  apply set_eq. intros x. rewrite elem_of_intersection. split; [by intros [? _]|].
  by intros ?%elem_of_empty.
Qed.

Lemma intersection_empty_right {K} `{Countable K} (X : gset K) : X ∩ ∅ = ∅.
Proof.
  apply set_eq. intros x. rewrite elem_of_intersection. split; [by intros [_ ?]|].
  by intros ?%elem_of_empty.
Qed.

(** With an empty baseline every key of the current mapping is added and
    nothing is removed or changed; with an empty current mapping every key
    of the baseline is removed. *)
Theorem diff_against_empty :
  (∀ current : gmap (string * string) endpoint,
     diff_endpoints ∅ current
       = Ok (py_sort tuple_ltb (elements (dom current)), [], [])) ∧
  (∀ baseline : gmap (string * string) endpoint,
     diff_endpoints baseline ∅
       = Ok ([], py_sort tuple_ltb (elements (dom baseline)), [])) ∧
  (∀ current : gmap string schema,
     diff_schemas ∅ current
       = Ok (py_sort String.ltb (elements (dom current)), [], [])) ∧
  (∀ baseline : gmap string schema,
     diff_schemas baseline ∅
       = Ok ([], py_sort String.ltb (elements (dom baseline)), [])).
Proof.
  unfold diff_endpoints, diff_schemas. split_and!; intros m; rewrite dom_empty_L.
  - by rewrite difference_empty_L, empty_difference_L, intersection_empty_left,
      elements_empty.
  - by rewrite difference_empty_L, empty_difference_L, intersection_empty_right,
      elements_empty.
  - by rewrite difference_empty_L, empty_difference_L, intersection_empty_left,
      elements_empty.
  - by rewrite difference_empty_L, empty_difference_L, intersection_empty_right,
      elements_empty.
Qed.

(** ** What the change descriptions list *)

Lemma report_names_elem (mk : list pykey → change) (names : gset pykey) ds :
  (∀ a b, mk a = mk b → a = b) →
  report_names mk names = Ok ds →
  ∀ l, mk l ∈ ds ↔ names ≠ ∅ ∧ py_sorted key_lt (elements names) = Ok l.
Proof.
  intros Hinj. unfold report_names. destruct (decide (names = ∅)) as [->|Hne]; intros Hr l.
  - injection Hr as <-. rewrite elem_of_nil. split; [done|]. by intros [[] _].
  - inv_bind Hr. injection Hr as <-. rewrite list_elem_of_singleton, Ha. split.
    + intros ->%Hinj. done.
    + by intros [_ [= ->]].
Qed.

Lemma elem_of_sorted_names (names : gset pykey) (l : list pykey) (k : pykey) :
  py_sorted key_lt (elements names) = Ok l → k ∈ l ↔ k ∈ names.
Proof. intros Hs. by rewrite (py_sorted_perm _ _ _ Hs), elem_of_elements. Qed.

(** The new-parameter description lists exactly the names that the
    current record has and the baseline record lacks, each once; the
    removed-parameter description exactly the names that only the baseline
    record has.  A name on one side only is always listed. *)
Theorem parameter_descriptions_list_differences
    (old new : endpoint) (diffs : list change) (old_names new_names : gset pykey) :
  endpoint_diffs old new = Ok diffs →
  param_names (parameters old) = Ok old_names →
  param_names (parameters new) = Ok new_names →
  (∀ names, NewParams names ∈ diffs →
     NoDup names ∧ ∀ k, k ∈ names ↔ k ∈ new_names ∧ k ∉ old_names) ∧
  (∀ names, RemovedParams names ∈ diffs →
     NoDup names ∧ ∀ k, k ∈ names ↔ k ∈ old_names ∧ k ∉ new_names) ∧
  (∀ k, k ∈ new_names → k ∉ old_names → ∃ names, NewParams names ∈ diffs ∧ k ∈ names) ∧
  (∀ k, k ∈ old_names → k ∉ new_names → ∃ names, RemovedParams names ∈ diffs ∧ k ∈ names).
Proof.
  intros (so & sn & da & dr & Hso & Hsn & Ha & Hr & ->)%endpoint_diffs_Ok Ho Hn.
  assert (so = old_names) as -> by congruence.
  assert (sn = new_names) as -> by congruence.
  pose proof (report_names_elem NewParams _ _ ltac:(by intros ?? [=]) Ha) as Hae.
  pose proof (report_names_elem RemovedParams _ _ ltac:(by intros ?? [=]) Hr) as Hre.
  pose proof (report_names_Ok _ _ _ Hr) as [_ Hrk].
  pose proof (report_names_Ok _ _ _ Ha) as [_ Hak].
  assert (∀ names, NewParams names ∈
      (if py_ne (summary old) (summary new)
       then [SummaryChanged (summary old) (summary new)] else []) ++
      (if py_ne (deprecated old) (deprecated new)
       then [DeprecatedChanged (deprecated old) (deprecated new)] else []) ++
      (if py_ne (tags old) (tags new)
       then [TagsChanged (tags old) (tags new)] else []) ++ da ++ dr
      ↔ NewParams names ∈ da) as Hnew.
  { intros names. rewrite !elem_of_app. split; [|tauto].
    destruct (py_ne (summary old) (summary new)),
      (py_ne (deprecated old) (deprecated new)), (py_ne (tags old) (tags new));
      rewrite ?list_elem_of_singleton, ?elem_of_nil; intros H;
      decompose [or] H; try done.
    all: match goal with H : NewParams _ ∈ _ |- _ => by apply Hrk in H as [? [=]] end. }
  assert (∀ names, RemovedParams names ∈
      (if py_ne (summary old) (summary new)
       then [SummaryChanged (summary old) (summary new)] else []) ++
      (if py_ne (deprecated old) (deprecated new)
       then [DeprecatedChanged (deprecated old) (deprecated new)] else []) ++
      (if py_ne (tags old) (tags new)
       then [TagsChanged (tags old) (tags new)] else []) ++ da ++ dr
      ↔ RemovedParams names ∈ dr) as Hrem.
  { intros names. rewrite !elem_of_app. split; [|tauto].
    destruct (py_ne (summary old) (summary new)),
      (py_ne (deprecated old) (deprecated new)), (py_ne (tags old) (tags new));
      rewrite ?list_elem_of_singleton, ?elem_of_nil; intros H;
      decompose [or] H; try done.
    all: match goal with H : RemovedParams _ ∈ _ |- _ => by apply Hak in H as [? [=]] end. }
  split_and!.
  - intros names [_ Hs]%Hnew%Hae. split.
    + rewrite (py_sorted_perm _ _ _ Hs). apply NoDup_elements.
    + intros k. by rewrite (elem_of_sorted_names _ _ _ Hs), elem_of_difference.
  - intros names [_ Hs]%Hrem%Hre. split.
    + rewrite (py_sorted_perm _ _ _ Hs). apply NoDup_elements.
    + intros k. by rewrite (elem_of_sorted_names _ _ _ Hs), elem_of_difference.
  - intros k Hk Hk'.
    assert (new_names ∖ old_names ≠ ∅) as Hne.
    { intros Hempty. apply (not_elem_of_empty (C:=gset pykey) k).
      rewrite <- Hempty. by apply elem_of_difference. }
    unfold report_names in Ha. rewrite decide_False in Ha by done. inv_bind Ha.
    injection Ha as <-. exists a. split.
    + apply Hnew. by left.
    + rewrite (elem_of_sorted_names _ _ _ Ha0). by apply elem_of_difference.
  - intros k Hk Hk'.
    assert (old_names ∖ new_names ≠ ∅) as Hne.
    { intros Hempty. apply (not_elem_of_empty (C:=gset pykey) k).
      rewrite <- Hempty. by apply elem_of_difference. }
    unfold report_names in Hr. rewrite decide_False in Hr by done. inv_bind Hr.
    injection Hr as <-. exists a. split.
    + apply Hrem. by left.
    + rewrite (elem_of_sorted_names _ _ _ Ha0). by apply elem_of_difference.
Qed.

Lemma parameter_descriptions_list_differences_witness :
  (∀ names, NewParams names ∈ [NewParams [KStr "limit"]] →
     NoDup names ∧
     ∀ k, k ∈ names ↔
       k ∈ ({[KStr "cursor"; KStr "limit"]} : gset pykey) ∧
       k ∉ ({[KStr "cursor"]} : gset pykey)) ∧
  (∀ names, RemovedParams names ∈ [NewParams [KStr "limit"]] →
     NoDup names ∧
     ∀ k, k ∈ names ↔
       k ∈ ({[KStr "cursor"]} : gset pykey) ∧
       k ∉ ({[KStr "cursor"; KStr "limit"]} : gset pykey)) ∧
  (∀ k, k ∈ ({[KStr "cursor"; KStr "limit"]} : gset pykey) →
     k ∉ ({[KStr "cursor"]} : gset pykey) →
     ∃ names, NewParams names ∈ [NewParams [KStr "limit"]] ∧ k ∈ names) ∧
  (∀ k, k ∈ ({[KStr "cursor"]} : gset pykey) →
     k ∉ ({[KStr "cursor"; KStr "limit"]} : gset pykey) →
     ∃ names, RemovedParams names ∈ [NewParams [KStr "limit"]] ∧ k ∈ names).
Proof.
  apply (parameter_descriptions_list_differences
    (Endpoint (JStr "") (JStr "") (JArr []) (JBool false)
       [Param (JStr "cursor") JNull (JBool false)])
    (Endpoint (JStr "") (JStr "") (JArr []) (JBool false)
       [Param (JStr "cursor") JNull (JBool false);
        Param (JStr "limit") JNull (JBool false)])).
  - vm_refl.
  - vm_refl.
  - vm_refl.
Defined.

(** The schema differ's property descriptions: the new-properties
    description lists, in increasing order, exactly the properties of the
    current schema that the baseline schema lacks, and the
    removed-properties description those that only the baseline has. *)
Theorem property_descriptions_list_differences (old new : schema) :
  (∀ names, NewProperties names ∈ schema_diffs old new →
     StronglySorted (λ a b, String.ltb a b = true) names ∧
     ∀ p, p ∈ names ↔ p ∈ properties new ∧ p ∉ properties old) ∧
  (∀ names, RemovedProperties names ∈ schema_diffs old new →
     StronglySorted (λ a b, String.ltb a b = true) names ∧
     ∀ p, p ∈ names ↔ p ∈ properties old ∧ p ∉ properties new) ∧
  (∀ p, p ∈ properties new → p ∉ properties old →
     ∃ names, NewProperties names ∈ schema_diffs old new ∧ p ∈ names) ∧
  (∀ p, p ∈ properties old → p ∉ properties new →
     ∃ names, RemovedProperties names ∈ schema_diffs old new ∧ p ∈ names).
Proof.
  unfold schema_diffs.
  set (X := list_to_set (properties old) : gset string).
  set (Y := list_to_set (properties new) : gset string).
  assert (∀ p, p ∈ Y ∖ X ↔ p ∈ properties new ∧ p ∉ properties old) as HYX.
  { intros p. unfold X, Y. by rewrite elem_of_difference, !elem_of_list_to_set. }
  assert (∀ p, p ∈ X ∖ Y ↔ p ∈ properties old ∧ p ∉ properties new) as HXY.
  { intros p. unfold X, Y. by rewrite elem_of_difference, !elem_of_list_to_set. }
  assert (∀ Z : gset string,
            StronglySorted (λ a b, String.ltb a b = true)
              (py_sort String.ltb (elements Z))) as Hsorted.
  { intros Z. apply py_sort_increasing;
      [apply string_ltb_trans|apply string_ltb_trichotomy|apply NoDup_elements]. }
  split_and!.
  - intros names. rewrite !elem_of_app.
    destruct (decide (Y ∖ X = ∅)), (decide (X ∖ Y = ∅)),
      (py_ne (JArr (required old)) (JArr (required new)));
      rewrite ?list_elem_of_singleton, ?elem_of_nil; intros H;
      decompose [or] H; try done; simplify_eq; (split; [done|]);
      intros p; by rewrite elem_of_py_sort, elem_of_elements.
  - intros names. rewrite !elem_of_app.
    destruct (decide (Y ∖ X = ∅)), (decide (X ∖ Y = ∅)),
      (py_ne (JArr (required old)) (JArr (required new)));
      rewrite ?list_elem_of_singleton, ?elem_of_nil; intros H;
      decompose [or] H; try done; simplify_eq; (split; [done|]);
      intros p; by rewrite elem_of_py_sort, elem_of_elements.
  - intros p Hp Hp'. assert (p ∈ Y ∖ X) as Hin by (by apply HYX).
    destruct (decide (Y ∖ X = ∅)) as [Hempty|_].
    { rewrite Hempty in Hin. by apply not_elem_of_empty in Hin. }
    eexists. split; [by left|]. by rewrite elem_of_py_sort, elem_of_elements.
  - intros p Hp Hp'. assert (p ∈ X ∖ Y) as Hin by (by apply HXY).
    destruct (decide (X ∖ Y = ∅)) as [Hempty|_].
    { rewrite Hempty in Hin. by apply not_elem_of_empty in Hin. }
    eexists. split.
    + rewrite elem_of_app. right. by left.
    + by rewrite elem_of_py_sort, elem_of_elements.
Qed.

(** * Which exceptions can be raised *)

Lemma bind_Raise {A B} (f : A → result B) (r : result A) (e : exn) :
  r ≫= f = Raise e ↔ r = Raise e ∨ ∃ a, r = Ok a ∧ f a = Raise e.
Proof.
  destruct r as [a|e']; simpl; split.
  - eauto.
  - by intros [?|(a' & [= <-] & ?)].
  - intros [= ->]. by left.
  - by intros [[= ->]|(a' & ? & _)].
Qed.

Lemma mapM_Raise {A B} (f : A → result B) (l : list A) (e : exn) :
  mapM f l = Raise e → ∃ x, x ∈ l ∧ f x = Raise e.
Proof.
  induction l as [|x l IH]; simpl; [done|].
  intros [Hx|(y & Hy & [Hl|(k & _ & [=])]%bind_Raise)]%bind_Raise.
  - exists x. by split; [left|].
  - destruct (IH Hl) as (z & ? & ?). exists z. by split; [right|].
Qed.

Lemma foldM_Raise {A B} (f : B → A → result B) (acc : B) (l : list A) (e : exn) :
  foldM f acc l = Raise e → ∃ acc' x, x ∈ l ∧ f acc' x = Raise e.
Proof.
  revert acc. induction l as [|x l IH]; intros acc; simpl; [done|].
  intros [Hx|(acc' & _ & Hl)]%bind_Raise.
  - exists acc, x. by split; [left|].
  - destruct (IH _ Hl) as (acc'' & z & ? & ?). exists acc'', z. by split; [right|].
Qed.

Lemma py_get_Raise x k d e : py_get x k d = Raise e → e = AttributeError.
Proof. destruct x; simpl; by intros [=]. Qed.

Lemma py_items_Raise x e : py_items x = Raise e → e = AttributeError.
Proof. destruct x; simpl; by intros [=]. Qed.

Lemma py_keys_Raise x e : py_keys x = Raise e → e = AttributeError.
Proof. destruct x; simpl; by intros [=]. Qed.

Lemma py_iter_Raise x e : py_iter x = Raise e → e = TypeError.
Proof. destruct x; simpl; by intros [=]. Qed.

Lemma py_hashable_Raise x e : py_hashable x = Raise e → e = TypeError.
Proof. destruct x; simpl; by intros [=]. Qed.

Lemma py_sorted_Raise {A} (lt : A → A → result bool) l e :
  py_sorted lt l = Raise e → e = TypeError.
Proof. unfold py_sorted. destruct (orderable lt l); by intros [=]. Qed.

Lemma build_param_Raise p e : build_param p = Raise e → e = AttributeError.
Proof.
  unfold build_param.
  intros [H|(? & _ & [H|(? & _ & [H|(? & _ & [=])]%bind_Raise)]%bind_Raise)]%bind_Raise;
    by apply py_get_Raise in H.
Qed.

Lemma build_endpoint_Raise details e :
  build_endpoint details = Raise e → e = AttributeError ∨ e = TypeError.
Proof.
  unfold build_endpoint.
  intros [H|(? & _ & [H|(? & _ & [H|(? & _ & [H|(? & _ & [H|(? & _ &
    [H|(? & _ & [H|(? & _ & [=])]%bind_Raise)]%bind_Raise)]%bind_Raise)]%bind_Raise)
    ]%bind_Raise)]%bind_Raise)]%bind_Raise;
    try (apply py_get_Raise in H; by left).
  - apply py_iter_Raise in H. by right.
  - apply mapM_Raise in H as (p & _ & H%build_param_Raise). by left.
Qed.

Lemma report_names_Raise mk names e : report_names mk names = Raise e → e = TypeError.
Proof.
  unfold report_names. destruct (decide _); [done|].
  intros [H|(? & _ & [=])]%bind_Raise. by apply py_sorted_Raise in H.
Qed.

Lemma param_names_Raise params e : param_names params = Raise e → e = TypeError.
Proof.
  unfold param_names. intros [H|(? & _ & [=])]%bind_Raise.
  apply mapM_Raise in H as (p & _ & H). by apply py_hashable_Raise in H.
Qed.

Lemma endpoint_diffs_Raise old new e : endpoint_diffs old new = Raise e → e = TypeError.
Proof.
  unfold endpoint_diffs.
  intros [H|(? & _ & [H|(? & _ & [H|(? & _ & [H|(? & _ & [=])]%bind_Raise)
    ]%bind_Raise)]%bind_Raise)]%bind_Raise;
    first [by apply param_names_Raise in H|by apply report_names_Raise in H].
Qed.

Lemma extract_endpoints_Raise spec e :
  extract_endpoints spec = Raise e → e = AttributeError ∨ e = TypeError.
Proof.
  unfold extract_endpoints.
  intros [H|(paths & _ & [H|(ps & _ & H)]%bind_Raise)]%bind_Raise.
  { apply py_get_Raise in H. by left. }
  { apply py_items_Raise in H. by left. }
  apply foldM_Raise in H as (acc & [path item] & _ & H). unfold extract_path in H.
  apply bind_Raise in H as [H|(ms & _ & H)].
  { apply py_items_Raise in H. by left. }
  apply foldM_Raise in H as (acc' & [m details] & _ & H). unfold extract_methods in H.
  destruct (decide (m ∈ HTTP_METHODS)); [|done].
  apply bind_Raise in H as [H|(? & _ & [=])]. by apply build_endpoint_Raise in H.
Qed.

Lemma extract_schemas_Raise spec e :
  extract_schemas spec = Raise e → e = AttributeError ∨ e = TypeError.
Proof.
  unfold extract_schemas.
  intros [H|(c & _ & [H|(s & _ & [H|(ss & _ & H)]%bind_Raise)]%bind_Raise)]%bind_Raise;
    try (apply py_get_Raise in H; by left).
  { apply py_items_Raise in H. by left. }
  apply foldM_Raise in H as (acc & [name sch] & _ & H). unfold extract_schema in H.
  apply bind_Raise in H as [H|(? & _ & [H|(? & _ & [H|(? & _ & [H|(? & _ &
    [H|(? & _ & [=])]%bind_Raise)]%bind_Raise)]%bind_Raise)]%bind_Raise)].
  - apply py_get_Raise in H. by left.
  - apply py_keys_Raise in H. by left.
  - apply py_get_Raise in H. by left.
  - apply py_iter_Raise in H. by right.
  - apply py_sorted_Raise in H. by right.
Qed.

Lemma diff_endpoints_Raise baseline current e :
  diff_endpoints baseline current = Raise e → e = TypeError.
Proof.
  unfold diff_endpoints. intros [H|(? & _ & [=])]%bind_Raise.
  apply foldM_Raise in H as (acc & key & Hkey & H).
  apply elem_of_shared_keys in Hkey as [[old Ho] [new Hn]].
  rewrite diff_endpoint_step_eq in H. unfold py_index in H. rewrite Ho, Hn in H.
  simpl in H. apply bind_Raise in H as [H|(? & _ & [=])].
  by apply endpoint_diffs_Raise in H.
Qed.

(** Extraction fails only with [AttributeError] (a value that should be a
    mapping is not one) or [TypeError] (a [parameters] or [required] value
    that cannot be iterated or sorted); the endpoint differ fails only
    with [TypeError] (an unhashable parameter name, or names that cannot
    be sorted); the schema differ never fails.  In particular no lookup by
    key ever misses. *)
Theorem pipeline_exceptions :
  (∀ spec e, extract_endpoints spec = Raise e → e = AttributeError ∨ e = TypeError) ∧
  (∀ spec e, extract_schemas spec = Raise e → e = AttributeError ∨ e = TypeError) ∧
  (∀ baseline current e, diff_endpoints baseline current = Raise e → e = TypeError) ∧
  (∀ baseline current e, diff_schemas baseline current ≠ Raise e).
Proof.
  split_and!.
  - apply extract_endpoints_Raise.
  - apply extract_schemas_Raise.
  - apply diff_endpoints_Raise.
  - intros baseline current e.
    destruct (diff_schemas_total baseline current) as (a & r & c & ->). done.
Qed.

(** With exactly two file arguments, everything the program does before
    it prints the report (loading the two files, extracting, diffing and
    formatting) fails only with an exception raised while loading one of
    the two files, with an [AttributeError] or with a [TypeError]; the
    reporter never fails on what the differs hand it. *)
Theorem compare_exceptions (py_str : json → string) (describe : change → string)
    (bpath cpath : string) (load : string → result json) (e : exn) :
  compare py_str describe load bpath cpath = Raise e →
  load bpath = Raise e ∨ load cpath = Raise e ∨ e = AttributeError ∨ e = TypeError.
Proof.
  intros Hc. unfold compare in Hc.
  apply bind_Raise in Hc as [H|(bspec & _ & Hc)]; [by left|].
  apply bind_Raise in Hc as [H|(cspec & _ & Hc)]; [by right; left|].
  right. right.
  apply bind_Raise in Hc as [H|(be & _ & Hc)]; [by apply extract_endpoints_Raise in H|].
  apply bind_Raise in Hc as [H|(ce & _ & Hc)]; [by apply extract_endpoints_Raise in H|].
  apply bind_Raise in Hc as [H|(bs & _ & Hc)]; [by apply extract_schemas_Raise in H|].
  apply bind_Raise in Hc as [H|(cs & _ & Hc)]; [by apply extract_schemas_Raise in H|].
  apply bind_Raise in Hc as [H|([[ea er] ec] & Hde & Hc)].
  { apply diff_endpoints_Raise in H. by right. }
  apply bind_Raise in Hc as [H|([[sa sr] sc] & _ & Hc)].
  { by destruct (diff_schemas_total bs cs) as (? & ? & ? & ?); congruence. }
  apply bind_Raise in Hc as [H|(? & _ & [=])].
  destruct (diff_endpoints_keys _ _ _ _ _ Hde) as [Hea Her].
  destruct (format_report_total py_str describe ea er ec sa sr sc ce be Hea Her)
    as [report Hreport].
  congruence.
Qed.

Lemma compare_exceptions_witness :
  unnamed_load "baseline.json" = Raise TypeError ∨
  unnamed_load "current.json" = Raise TypeError ∨
  TypeError = AttributeError ∨ TypeError = TypeError.
Proof.
  apply (compare_exceptions (λ _, "") (λ _, "") "baseline.json" "current.json"
           unnamed_load).
  vm_refl.
Defined.

(** * When the endpoint differ returns *)

Lemma orderable_elem {A} (lt : A → A → result bool) (l : list A) (x y : A) :
  orderable lt l = true → x ∈ l → y ∈ l → x ≠ y → is_ok (lt x y) = true.
Proof.
  induction l as [|a l IH]; simpl; [by intros _ ?%elem_of_nil|].
  intros [Ha Hl]%andb_true_iff Hx Hy Hne. rewrite forallb_forall in Ha.
  apply elem_of_cons in Hx as [->|Hx]; apply elem_of_cons in Hy as [->|Hy].
  - done.
  - apply list_elem_of_In in Hy. by apply Ha, andb_true_iff in Hy as [? _].
  - apply list_elem_of_In in Hx. by apply Ha, andb_true_iff in Hx as [_ ?].
  - by apply IH.
Qed.

Lemma orderable_Forall {A} (lt : A → A → result bool) (P : A → Prop) (l : list A) :
  (∀ x y, P x → P y → is_ok (lt x y) = true) → Forall P l → orderable lt l = true.
Proof.
  intros Hlt. induction 1 as [|a l Ha Hl IH]; simpl; [done|].
  rewrite IH, andb_true_r. apply forallb_forall. intros y Hy%list_elem_of_In.
  rewrite Forall_forall in Hl. rewrite !Hlt; auto.
Qed.

Lemma report_names_incomparable mk (names : gset pykey) (a b : pykey) ds :
  a ∈ names → b ∈ names → a ≠ b → is_ok (key_lt a b) = false →
  report_names mk names ≠ Ok ds.
Proof.
  intros Ha Hb Hne Hlt. unfold report_names.
  destruct (decide (names = ∅)) as [->|_]; [by apply not_elem_of_empty in Ha|].
  unfold py_sorted. destruct (orderable key_lt (elements names)) eqn:Ho; [|done].
  apply (orderable_elem _ _ a b) in Ho; [congruence|by apply elem_of_elements..|done].
Qed.

(** A name without a string next to a named one.  When two of the names
    that only one side has cannot be ordered (the name [None] of an
    unnamed parameter together with any other name, or a number together
    with a string), sorting them fails and the whole endpoint diff ends
    with [TypeError]. *)
Theorem diff_endpoints_unsortable_names
    (baseline current : gmap (string * string) endpoint) (key : string * string)
    (old new : endpoint) (old_names new_names : gset pykey) (a b : pykey) :
  baseline !! key = Some old →
  current !! key = Some new →
  param_names (parameters old) = Ok old_names →
  param_names (parameters new) = Ok new_names →
  (a ∈ new_names ∖ old_names ∧ b ∈ new_names ∖ old_names) ∨
  (a ∈ old_names ∖ new_names ∧ b ∈ old_names ∖ new_names) →
  a ≠ b →
  is_ok (key_lt a b) = false →
  diff_endpoints baseline current = Raise TypeError.
Proof.
  intros Ho Hn Hon Hnn Hab Hne Hlt.
  destruct (diff_endpoints baseline current) as [[[added removed] changed]|e] eqn:Hd.
  - exfalso. apply diff_endpoints_Ok in Hd as (_ & _ & Hf).
    destruct (foldM_step_defined _ _ _ _ (diff_endpoint_step_eq baseline current)
                _ _ _ Hf key) as (diffs & old' & new' & Ho' & Hn' & Hdiffs).
    { apply elem_of_shared_keys. by rewrite Ho, Hn. }
    assert (old' = old) as -> by congruence. assert (new' = new) as -> by congruence.
    apply endpoint_diffs_Ok in Hdiffs as (so & sn & da & dr & Hso & Hsn & Ha & Hr & _).
    assert (so = old_names) as -> by congruence.
    assert (sn = new_names) as -> by congruence.
    destruct Hab as [[Hain Hbin]|[Hain Hbin]].
    + exact (report_names_incomparable _ _ a b da Hain Hbin Hne Hlt Ha).
    + exact (report_names_incomparable _ _ a b dr Hain Hbin Hne Hlt Hr).
  - by apply diff_endpoints_Raise in Hd as ->.
Qed.

Lemma diff_endpoints_unsortable_names_witness :
  diff_endpoints
    {[ ("GET", "/boards") :=
         Endpoint (JStr "") (JStr "") (JArr []) (JBool false) [] ]}
    {[ ("GET", "/boards") :=
         Endpoint (JStr "") (JStr "") (JArr []) (JBool false)
           [Param JNull (JStr "query") (JBool false);
            Param (JStr "limit") (JStr "query") (JBool false)] ]}
    = Raise TypeError.
Proof.
  apply (diff_endpoints_unsortable_names _ _ ("GET", "/boards")
           (Endpoint (JStr "") (JStr "") (JArr []) (JBool false) [])
           (Endpoint (JStr "") (JStr "") (JArr []) (JBool false)
              [Param JNull (JStr "query") (JBool false);
               Param (JStr "limit") (JStr "query") (JBool false)])
           ∅ {[KNone; KStr "limit"]} KNone (KStr "limit")).
  - vm_refl.
  - vm_refl.
  - vm_refl.
  - vm_refl.
  - left. split; apply elem_of_difference; (split; [|apply not_elem_of_empty]).
    + apply elem_of_union. left. by apply elem_of_singleton.
    + apply elem_of_union. right. by apply elem_of_singleton.
  - done.
  - reflexivity.
Defined.

Lemma param_names_strings params :
  Forall (λ n, ∃ s, n = JStr s) (p_name <$> params) →
  ∃ names, param_names params = Ok names ∧ ∀ k, k ∈ names → ∃ s, k = KStr s.
Proof.
  intros Hs.
  assert (Forall (λ n, is_ok (py_hashable n)) (p_name <$> params)) as Hh.
  { eapply Forall_impl; [exact Hs|]. by intros n [s ->]. }
  rewrite Forall_fmap in Hh.
  apply (mapM_total (λ p, py_hashable (p_name p))) in Hh as [ks Hks].
  assert (param_names params = Ok (list_to_set ks)) as Hp.
  { unfold param_names. by rewrite Hks. }
  eexists. split; [done|]. intros k Hk.
  apply (elem_of_param_names _ _ _ Hp) in Hk as (n & Hn & Hhash).
  rewrite Forall_forall in Hs. destruct (Hs _ Hn) as [s ->].
  injection Hhash as <-. by exists s.
Qed.

Lemma report_names_strings mk (names : gset pykey) :
  (∀ k, k ∈ names → ∃ s, k = KStr s) → ∃ ds, report_names mk names = Ok ds.
Proof.
  intros Hs. unfold report_names. destruct (decide _); [by eexists|].
  unfold py_sorted.
  rewrite (orderable_Forall key_lt (λ k, ∃ s, k = KStr s)).
  - simpl. by eexists.
  - by intros x y [s ->] [t ->].
  - apply Forall_forall. intros k Hk%elem_of_elements. auto.
Qed.

Lemma endpoint_diffs_total old new :
  Forall (λ n, ∃ s, n = JStr s) (p_name <$> parameters old) →
  Forall (λ n, ∃ s, n = JStr s) (p_name <$> parameters new) →
  ∃ diffs, endpoint_diffs old new = Ok diffs.
Proof.
  intros Ho Hn.
  destruct (param_names_strings _ Ho) as (so & Hso & Hsos).
  destruct (param_names_strings _ Hn) as (sn & Hsn & Hsns).
  destruct (report_names_strings NewParams (sn ∖ so)) as [da Hda].
  { intros k [? _]%elem_of_difference. auto. }
  destruct (report_names_strings RemovedParams (so ∖ sn)) as [dr Hdr].
  { intros k [? _]%elem_of_difference. auto. }
  unfold endpoint_diffs. rewrite Hso, Hsn. simpl. rewrite Hda. simpl. rewrite Hdr.
  by eexists.
Qed.

(** Every parameter of every record has a string name. *)
Definition string_names (eps : gmap (string * string) endpoint) : Prop :=
  ∀ key info, eps !! key = Some info →
    Forall (λ n, ∃ s, n = JStr s) (p_name <$> parameters info).

Lemma diff_endpoints_total (baseline current : gmap (string * string) endpoint) :
  string_names baseline → string_names current →
  ∃ added removed changed, diff_endpoints baseline current = Ok (added, removed, changed).
Proof.
  intros Hb Hc. unfold diff_endpoints.
  destruct (foldM_step_total _ _ _ _ (diff_endpoint_step_eq baseline current)
              (py_sort tuple_ltb (elements (dom baseline ∩ dom current))) [])
    as [changed ->]; [|simpl; by do 3 eexists].
  intros key [[old Ho] [new Hn]]%elem_of_shared_keys.
  destruct (endpoint_diffs_total old new) as [diffs Hd]; [by eapply Hb|by eapply Hc|].
  by exists diffs, old, new.
Qed.

(** When every parameter of every endpoint has a string name, the
    endpoint differ returns: every name can be hashed, and the names that
    only one side has can be sorted. *)
Theorem diff_endpoints_returns (baseline current : gmap (string * string) endpoint) :
  (∀ key info, baseline !! key = Some info →
     Forall (λ n, ∃ s, n = JStr s) (p_name <$> parameters info)) →
  (∀ key info, current !! key = Some info →
     Forall (λ n, ∃ s, n = JStr s) (p_name <$> parameters info)) →
  ∃ added removed changed, diff_endpoints baseline current = Ok (added, removed, changed).
Proof.
  intros Hb Hc.
  assert (∀ key, key ∈ py_sort tuple_ltb (elements (dom baseline ∩ dom current)) →
            ∃ diffs old new, baseline !! key = Some old ∧ current !! key = Some new ∧
              endpoint_diffs old new = Ok diffs) as Hkeys.
  { intros key [[old Ho] [new Hn]]%elem_of_shared_keys.
    destruct (endpoint_diffs_total old new (Hb _ _ Ho) (Hc _ _ Hn)) as [diffs Hd].
    by exists diffs, old, new. }
  apply (foldM_step_total _ _ _ _ (diff_endpoint_step_eq baseline current) _ [])
    in Hkeys as [changed Hf].
  unfold diff_endpoints. rewrite Hf. simpl. by do 3 eexists.
Qed.

Lemma diff_endpoints_returns_witness :
  ∃ added removed changed,
    diff_endpoints release1_endpoints release2_endpoints = Ok (added, removed, changed).
Proof.
  apply diff_endpoints_returns.
  - apply (list_to_map_Forall
             (λ info, Forall (λ n, ∃ s, n = JStr s) (p_name <$> parameters info))).
    repeat constructor; by eexists.
  - apply (list_to_map_Forall
             (λ info, Forall (λ n, ∃ s, n = JStr s) (p_name <$> parameters info))).
    repeat constructor; by eexists.
Defined.

(** * The exit status of every run *)

(** Whatever the arguments and the files, the exit status is 0 or 1, and
    a run that exits with 0 has printed exactly the report that says no
    change was detected, and nothing on the error stream. *)
Theorem main_exit_codes (py_str : json → string) (describe : change → string)
    (argv : list string) (load : string → result json) :
  (exit_status (status (main py_str describe argv load)) = 0 ∨
   exit_status (status (main py_str describe argv load)) = 1) ∧
  (status (main py_str describe argv load) = Exited 0 →
   main py_str describe argv load =
     Run [String.concat nl ["# Miro API Spec Diff Report" +:+ nl;
                            "No changes detected." +:+ nl]] [] (Exited 0)).
Proof.
  destruct argv as [|prog [|bpath [|cpath [|extra argv]]]]; simpl;
    try (split; [by right|done]).
  destruct (compare py_str describe load bpath cpath) as [[report code]|e] eqn:Hc;
    simpl; [|split; [by right|done]].
  unfold compare in Hc. inv_bind Hc.
  destruct a5 as [[ea er] ec]. inv_bind Hc.
  destruct a5 as [[sa sr] sc]. inv_bind Hc.
  injection Hc as <- <-.
  destruct (decide (0 < _)%nat) as [Hpos|Hzero]; simpl; (split; [auto|]); [done|].
  intros _. unfold format_report in Ha7.
  rewrite decide_True in Ha7 by lia. by injection Ha7 as <-.
Qed.

(** * Further properties of the extractor *)

(** ** The extracted schema records *)

Lemma extract_schema_Ok acc name sch out :
  extract_schema acc (name, sch) = Ok out →
  ∃ rec, schema_of sch rec ∧ out = <[name := rec]> acc.
Proof.
  unfold extract_schema. intros He. inv_bind He. injection He as <-.
  eexists (Schema _ _). split; [|done]. by exists a, a0, a1, a2.
Qed.

Lemma schema_of_unique sch r1 r2 : schema_of sch r1 → schema_of sch r2 → r1 = r2.
Proof.
  intros (po & pk & ro & ri & H1 & H2 & H3 & H4 & H5 & H6)
         (po' & pk' & ro' & ri' & H1' & H2' & H3' & H4' & H5' & H6').
  destruct r1 as [p1 q1], r2 as [p2 q2]. simpl in *.
  assert (po' = po) as -> by congruence. assert (pk' = pk) as -> by congruence.
  assert (ro' = ro) as -> by congruence. assert (ri' = ri) as -> by congruence.
  congruence.
Qed.

Lemma foldM_extract_schema_lookup ss acc out :
  NoDup ss.*1 →
  foldM extract_schema acc ss = Ok out →
  ∀ name rec, out !! name = Some rec ↔
    (∃ sch, (name, sch) ∈ ss ∧ schema_of sch rec) ∨
    (acc !! name = Some rec ∧ name ∉ ss.*1).
Proof.
  revert acc. induction ss as [|[n0 s0] ss IH]; intros acc Hnd Hf name rec.
  { simpl in Hf. injection Hf as <-. split.
    - intros ?. right. split; [done|]. by intros ?%elem_of_nil.
    - by intros [(? & ?%elem_of_nil & _)|[? _]]. }
  apply NoDup_cons in Hnd as [Hn0 Hnd]. simpl in Hf. inv_bind Hf.
  apply extract_schema_Ok in Ha as (rec0 & Hrec0 & ->).
  rewrite (IH _ Hnd Hf). simpl. setoid_rewrite elem_of_cons. split.
  - intros [(sch & ? & ?)|[Hl Hnin]]; [left; eauto|].
    destruct (decide (n0 = name)) as [->|Hne].
    + rewrite lookup_insert_eq in Hl. injection Hl as <-. left. eauto.
    + rewrite lookup_insert_ne in Hl by done. right. split; [done|].
      intros [Heq|Hin]; [by destruct Hne|exact (Hnin Hin)].
  - intros [(sch & [[= -> ->]|?] & Hsch)|[Hl Hnin]].
    + right. split; [|exact Hn0]. rewrite lookup_insert_eq. f_equal.
      by eapply schema_of_unique.
    + left. eauto.
    + right. split; [|intros Hin; apply Hnin; by right].
      rewrite lookup_insert_ne; [done|]. intros ->. apply Hnin. by left.
Qed.

(** For a document whose [components.schemas] section is a mapping, the
    extracted schema mapping has, for every name of the section, the
    record built from the entry of that name (its property names sorted,
    its [required] list sorted), and no other record. *)
Theorem extract_schemas_records
    (fields cf ss : list (string * json)) (schemas : gmap string schema) :
  dict_get "components" fields = Some (JObj cf) →
  dict_get "schemas" cf = Some (JObj ss) →
  NoDup ss.*1 →
  extract_schemas (JObj fields) = Ok schemas →
  ∀ name rec, schemas !! name = Some rec ↔ ∃ sch, (name, sch) ∈ ss ∧ schema_of sch rec.
Proof.
  intros Hc Hs Hnd He name rec. unfold extract_schemas in He. simpl in He.
  rewrite Hc in He. simpl in He. rewrite Hs in He. simpl in He.
  rewrite (foldM_extract_schema_lookup _ _ _ Hnd He), lookup_empty. split.
  - by intros [?|[? _]].
  - by left.
Qed.

Lemma extract_schemas_records_witness :
  ({[ "Board" := Schema [] [JStr "id"; JStr "name"] ]} : gmap string schema) !! "Board"
    = Some (Schema [] [JStr "id"; JStr "name"]) ↔
  ∃ sch, ("Board", sch) ∈ [("Board", JObj [("required", JArr (JStr <$> ["name"; "id"]))])] ∧
    schema_of sch (Schema [] [JStr "id"; JStr "name"]).
Proof.
  apply (extract_schemas_records
    [("components", JObj [("schemas", JObj [("Board", JObj [("required", JArr (JStr <$> ["name"; "id"]))])])])]
    [("schemas", JObj [("Board", JObj [("required", JArr (JStr <$> ["name"; "id"]))])])]).
  - reflexivity.
  - reflexivity.
  - repeat constructor. by intros ?%elem_of_nil.
  - vm_refl.
Defined.

Lemma foldM_extract_schema_origin ss acc out name rec :
  foldM extract_schema acc ss = Ok out →
  out !! name = Some rec →
  acc !! name = Some rec ∨ ∃ sch, schema_of sch rec.
Proof.
  revert acc. induction ss as [|[n0 s0] ss IH]; intros acc Hf Hl.
  { simpl in Hf. injection Hf as <-. by left. }
  simpl in Hf. inv_bind Hf. destruct (IH _ Hf Hl) as [Ha'|?]; [|by right].
  apply extract_schema_Ok in Ha as (rec0 & Hrec0 & ->).
  destruct (decide (n0 = name)) as [->|Hne].
  - rewrite lookup_insert_eq in Ha'. injection Ha' as <-. right. eauto.
  - rewrite lookup_insert_ne in Ha' by done. by left.
Qed.

(** Every extracted schema record keeps its property names in increasing
    order, and its [required] list in increasing order when the list holds
    strings, whatever the order in the document. *)
Theorem extracted_schema_sorted (spec : json) (schemas : gmap string schema)
    (name : string) (rec : schema) :
  extract_schemas spec = Ok schemas →
  schemas !! name = Some rec →
  Sorted String.le (properties rec) ∧
  (∀ names : list string, required rec = JStr <$> names → Sorted String.le names).
Proof.
  unfold extract_schemas. intros He Hl. inv_bind He.
  destruct (foldM_extract_schema_origin _ _ _ _ _ He Hl) as [Hempty|[sch Hsch]].
  { by rewrite lookup_empty in Hempty. }
  destruct Hsch as (po & pk & ro & ri & _ & _ & -> & _ & _ & Hreq). split.
  - apply py_sort_strings_sorted.
  - intros names Hn. rewrite Hn in Hreq. by eapply py_sorted_strings.
Qed.

Lemma extracted_schema_sorted_witness :
  Sorted String.le (properties (Schema [] [JStr "id"; JStr "name"])) ∧
  (∀ names : list string,
     required (Schema [] [JStr "id"; JStr "name"]) = JStr <$> names →
     Sorted String.le names).
Proof.
  apply (extracted_schema_sorted (board_schema_doc ["name"; "id"])
           {[ "Board" := Schema [] [JStr "id"; JStr "name"] ]} "Board").
  - vm_refl.
  - vm_refl.
Defined.

(** ** What endpoint extraction reads *)

Lemma foldM_cons {A B} (f : B → A → result B) acc x (l : list A) :
  foldM f acc (x :: l) = f acc x ≫= λ acc', foldM f acc' l.
Proof. reflexivity. Qed.

Lemma foldM_extract_methods_filter path ms acc :
  foldM (extract_methods path) acc ms =
  foldM (extract_methods path) acc (filter (λ o, o.1 ∈ HTTP_METHODS) ms).
Proof.
  revert acc. induction ms as [|[m details] ms IH]; intros acc; [done|].
  destruct (decide (m ∈ HTTP_METHODS)) as [Hin|Hnin].
  - rewrite filter_cons_True by done. rewrite !foldM_cons.
    destruct (extract_methods path acc (m, details)); simpl; [apply IH|done].
  - rewrite filter_cons_False by done. rewrite foldM_cons.
    assert (extract_methods path acc (m, details) = Ok acc) as ->.
    { unfold extract_methods. by rewrite decide_False. }
    apply IH.
Qed.

(** Endpoint extraction reads only the [paths] section and, in each path
    item, only the entries under the five recognized names: removing
    every other entry of every path item, and every other section of the
    document, changes neither the extracted mapping nor the exception
    raised. *)
Theorem extract_endpoints_reads_operations_only
    (fields ps : list (string * json)) :
  dict_get "paths" fields = Some (JObj ps) →
  extract_endpoints (JObj fields) =
  extract_endpoints
    (JObj [("paths",
            JObj ((λ e, (e.1, match e.2 with
                              | JObj ms => JObj (filter (λ o, o.1 ∈ HTTP_METHODS) ms)
                              | other => other
                              end)) <$> ps))]).
Proof.
  intros Hp. unfold extract_endpoints. simpl. rewrite Hp. simpl. clear Hp.
  generalize (∅ : gmap (string * string) endpoint).
  induction ps as [|[path item] ps IH]; intros acc; [done|].
  rewrite fmap_cons, !foldM_cons. cbn [fst snd].
  destruct item as [| | | | |ms]; try reflexivity.
  unfold extract_path. cbn [py_items mbind result_bind].
  rewrite <- (foldM_extract_methods_filter path ms acc).
  destruct (foldM (extract_methods path) acc ms); simpl; [apply IH|done].
Qed.

Lemma extract_endpoints_reads_operations_only_witness :
  extract_endpoints
    (JObj [("openapi", JStr "3.0.1");
           ("paths", JObj [("/boards",
              JObj [("parameters", JArr [JNum 1]);
                    ("get", JObj [("summary", JStr "List boards")]);
                    ("x-settings", JNull)])])]) =
  extract_endpoints
    (JObj [("paths",
            JObj ((λ e, (e.1, match e.2 with
                              | JObj ms => JObj (filter (λ o, o.1 ∈ HTTP_METHODS) ms)
                              | other => other
                              end)) <$>
                  [("/boards",
                    JObj [("parameters", JArr [JNum 1]);
                          ("get", JObj [("summary", JStr "List boards")]);
                          ("x-settings", JNull)])]))]).
Proof.
  apply (extract_endpoints_reads_operations_only
    [("openapi", JStr "3.0.1");
     ("paths", JObj [("/boards",
        JObj [("parameters", JArr [JNum 1]);
              ("get", JObj [("summary", JStr "List boards")]);
              ("x-settings", JNull)])])]).
  reflexivity.
Defined.

Lemma from_paths_perm ps1 ps2 key info :
  ps1 ≡ₚ ps2 → from_paths ps1 key info → from_paths ps2 key info.
Proof.
  intros Hperm (path & ms & Hin & Hfrom). exists path, ms. by rewrite <- Hperm.
Qed.

(** The extracted endpoint mapping does not depend on the order in which
    the document lists its paths. *)
Theorem extract_endpoints_order_independent
    (fields1 fields2 ps1 ps2 : list (string * json))
    (eps1 eps2 : gmap (string * string) endpoint) :
  dict_get "paths" fields1 = Some (JObj ps1) →
  dict_get "paths" fields2 = Some (JObj ps2) →
  ps1 ≡ₚ ps2 →
  NoDup ps1.*1 →
  (∀ path ms, (path, JObj ms) ∈ ps1 → NoDup ms.*1) →
  extract_endpoints (JObj fields1) = Ok eps1 →
  extract_endpoints (JObj fields2) = Ok eps2 →
  eps1 = eps2.
Proof.
  intros Hp1 Hp2 Hperm Hnd Hwf He1 He2.
  unfold extract_endpoints in He1, He2. simpl in He1, He2.
  rewrite Hp1 in He1. rewrite Hp2 in He2. simpl in He1, He2.
  apply foldM_extract_path in He1 as [_ H1]; [|done..].
  apply foldM_extract_path in He2 as [_ H2].
  - apply map_eq. intros key. apply option_eq. intros info.
    rewrite H1, H2, lookup_empty. split.
    + intros [?|[? _]]; [|done]. left. by eapply from_paths_perm.
    + intros [?|[? _]]; [|done]. left. by eapply from_paths_perm.
  - by rewrite <- Hperm.
  - intros path ms Hin. apply (Hwf path). by rewrite Hperm.
Qed.

Lemma extract_endpoints_order_independent_witness :
  ({[ ("GET", "/boards") := boards_info "List boards";
      ("POST", "/items") := boards_info "" ]} : gmap (string * string) endpoint) =
  {[ ("POST", "/items") := boards_info "";
     ("GET", "/boards") := boards_info "List boards" ]}.
Proof.
  apply (extract_endpoints_order_independent
    [("paths", JObj [("/boards", JObj [("get", JObj [("summary", JStr "List boards")])]);
                     ("/items", JObj [("post", JObj [])])])]
    [("paths", JObj [("/items", JObj [("post", JObj [])]);
                     ("/boards", JObj [("get", JObj [("summary", JStr "List boards")])])])]
    [("/boards", JObj [("get", JObj [("summary", JStr "List boards")])]);
     ("/items", JObj [("post", JObj [])])]
    [("/items", JObj [("post", JObj [])]);
     ("/boards", JObj [("get", JObj [("summary", JStr "List boards")])])]).
  - reflexivity.
  - reflexivity.
  - apply Permutation_swap.
  - apply (bool_decide_unpack _). by vm_compute.
  - intros path ms Hin. rewrite !elem_of_cons, elem_of_nil in Hin.
    destruct Hin as [[= -> ->]|[[= -> ->]|[]]];
      apply (bool_decide_unpack _); by vm_compute.
  - vm_refl.
  - vm_refl.
Defined.

(** * Documents of the expected shape *)

Lemma build_param_shape p :
  parameter_shape p → ∃ prm s, build_param p = Ok prm ∧ p_name prm = JStr s.
Proof.
  intros (fields & s & -> & Hname). unfold build_param. simpl. rewrite Hname. simpl.
  by eexists _, s.
Qed.

Lemma mapM_build_param_shape items :
  Forall parameter_shape items →
  ∃ params, mapM build_param items = Ok params ∧
    Forall (λ n, ∃ s, n = JStr s) (p_name <$> params).
Proof.
  induction 1 as [|p items Hp _ (params & Hparams & Hnames)]; simpl.
  { exists []. by split. }
  destruct (build_param_shape _ Hp) as (prm & s & -> & Hs). simpl.
  rewrite Hparams. simpl. exists (prm :: params). split; [done|].
  constructor; [by exists s|done].
Qed.

Lemma build_endpoint_shape details :
  operation_shape details →
  ∃ info, build_endpoint details = Ok info ∧
    Forall (λ n, ∃ s, n = JStr s) (p_name <$> parameters info).
Proof.
  intros (fields & -> & [Hnone|(items & Hsome & Hitems)]); unfold build_endpoint; simpl.
  - rewrite Hnone. simpl. eexists. split; [done|]. constructor.
  - rewrite Hsome. simpl.
    destruct (mapM_build_param_shape _ Hitems) as (params & -> & Hnames). simpl.
    eexists. by split.
Qed.

Lemma foldM_extract_methods_shape path ms acc :
  (∀ m details, (m, details) ∈ ms → m ∈ HTTP_METHODS → operation_shape details) →
  string_names acc →
  ∃ out, foldM (extract_methods path) acc ms = Ok out ∧ string_names out.
Proof.
  revert acc. induction ms as [|[m details] ms IH]; intros acc Hshape Hacc.
  { by exists acc. }
  rewrite foldM_cons.
  change (extract_methods path acc (m, details))
    with (if decide (m ∈ HTTP_METHODS)
          then info ← build_endpoint details; Ok (<[(upper m, path) := info]> acc)
          else Ok acc).
  destruct (decide (m ∈ HTTP_METHODS)) as [Hin|Hnin].
  - destruct (build_endpoint_shape details) as (info & -> & Hinfo).
    { apply (Hshape m); [by left|done]. }
    simpl. apply IH.
    + intros m' d' ?. apply Hshape. by right.
    + intros key info' Hl. destruct (decide ((upper m, path) = key)) as [<-|Hne].
      * rewrite lookup_insert_eq in Hl. by injection Hl as <-.
      * rewrite lookup_insert_ne in Hl by done. by eapply Hacc.
  - simpl. apply IH; [|done]. intros m' d' ?. apply Hshape. by right.
Qed.

Lemma foldM_extract_path_shape ps acc :
  (∀ path item, (path, item) ∈ ps → path_item_shape item) →
  string_names acc →
  ∃ out, foldM extract_path acc ps = Ok out ∧ string_names out.
Proof.
  revert acc. induction ps as [|[path item] ps IH]; intros acc Hshape Hacc.
  { by exists acc. }
  rewrite foldM_cons. destruct (Hshape path item) as (ms & -> & Hms); [by left|].
  unfold extract_path. simpl.
  destruct (foldM_extract_methods_shape path ms acc Hms Hacc) as (out & -> & Hout).
  simpl. apply IH; [|done]. intros path' item' ?. apply (Hshape path'). by right.
Qed.

Lemma string_names_empty : string_names ∅.
Proof. intros key info Hl. by rewrite lookup_empty in Hl. Qed.

Lemma extract_endpoints_shape spec :
  document_shape spec → ∃ eps, extract_endpoints spec = Ok eps ∧ string_names eps.
Proof.
  intros (fields & -> & [Hnone|(ps & Hsome & Hps)] & _); unfold extract_endpoints; simpl.
  - rewrite Hnone. simpl. exists ∅. split; [done|apply string_names_empty].
  - rewrite Hsome. simpl. apply foldM_extract_path_shape; [done|apply string_names_empty].
Qed.

Lemma extract_schema_shape acc name sch :
  schema_shape sch → ∃ out, extract_schema acc (name, sch) = Ok out.
Proof.
  intros (fields & -> & Hprops & Hreq). unfold extract_schema. simpl.
  assert (∃ pf, default (JObj []) (dict_get "properties" fields) = JObj pf) as [pf ->].
  { destruct Hprops as [->|[pf ->]]; by eexists. }
  simpl.
  assert (∃ names : list string,
            default (JArr []) (dict_get "required" fields) = JArr (JStr <$> names))
    as [names ->].
  { destruct Hreq as [->|[names ->]]; [by exists []|by eexists]. }
  simpl. unfold py_sorted.
  rewrite (orderable_Forall py_lt (λ x, ∃ s, x = JStr s)).
  - simpl. by eexists.
  - by intros x y [s ->] [t ->].
  - apply Forall_fmap, Forall_true. intros s. by exists s.
Qed.

Lemma extract_schemas_shape spec :
  document_shape spec → ∃ schemas, extract_schemas spec = Ok schemas.
Proof.
  intros (fields & -> & _ & Hcomp). unfold extract_schemas. simpl.
  destruct Hcomp as [->|(cf & -> & Hschemas)]; simpl; [by eexists|].
  destruct Hschemas as [->|(ss & -> & Hss)]; simpl; [by eexists|].
  generalize (∅ : gmap string schema).
  induction ss as [|[name sch] ss IH]; intros acc; [by eexists|].
  rewrite foldM_cons.
  destruct (extract_schema_shape acc name sch) as [out ->]; [by apply (Hss name); left|].
  simpl. apply IH. intros name' sch' ?. apply (Hss name'). by right.
Qed.

(** On two documents of the expected shape nothing fails before the
    report is printed.  When both files load, both documents are mappings
    whose path items, operations and schemas are mappings, every parameter
    is a mapping with a string name, and every [required] is a list of
    strings, then extraction, both differs and the reporter return: the
    report is formatted and the exit code is 0 or 1. *)
Theorem compare_on_shaped_documents (py_str : json → string) (describe : change → string)
    (bpath cpath : string) (load : string → result json) (bspec cspec : json) :
  load bpath = Ok bspec →
  load cpath = Ok cspec →
  document_shape bspec →
  document_shape cspec →
  ∃ report code,
    compare py_str describe load bpath cpath = Ok (report, code) ∧
    (code = 0 ∨ code = 1).
Proof.
  intros Hlb Hlc Hb Hc.
  destruct (extract_endpoints_shape _ Hb) as (be & Hbe & Hbn).
  destruct (extract_endpoints_shape _ Hc) as (ce & Hce & Hcn).
  destruct (extract_schemas_shape _ Hb) as (bs & Hbs).
  destruct (extract_schemas_shape _ Hc) as (cs & Hcs).
  destruct (diff_endpoints_total be ce Hbn Hcn) as (ea & er & ec & Hde).
  destruct (diff_schemas_total bs cs) as (sa & sr & sc & Hds).
  destruct (diff_endpoints_keys _ _ _ _ _ Hde) as [Hea Her].
  destruct (format_report_total py_str describe ea er ec sa sr sc ce be Hea Her)
    as [report Hreport].
  unfold compare. rewrite Hlb, Hlc. simpl.
  rewrite Hbe, Hce. simpl. rewrite Hbs, Hcs. simpl. rewrite Hde. simpl.
  rewrite Hds. simpl. rewrite Hreport. simpl.
  eexists _, _. split; [done|]. destruct (decide _); auto.
Qed.

Lemma release_doc_shape summ params req : document_shape (release_doc summ params req).
Proof.
  eexists. split_and!; [done| |].
  - right. eexists. split; [done|].
    intros path item [[= -> ->]|?%elem_of_nil]%elem_of_cons; [|done].
    eexists. split; [done|]. intros m details Hin Hm.
    apply elem_of_cons in Hin as [[= -> ->]|Hin].
    { by apply elem_of_HTTP_METHODS in Hm; decompose [or] Hm. }
    apply elem_of_cons in Hin as [[= -> ->]|?%elem_of_nil]; [|done].
    eexists. split; [done|]. right. eexists. split; [done|].
    apply Forall_fmap, Forall_true. intros n. by eexists _, n.
  - right. eexists. split; [done|]. right. eexists. split; [done|].
    intros name sch [[= -> ->]|?%elem_of_nil]%elem_of_cons; [|done].
    eexists. split_and!; [done| |].
    + right. by eexists.
    + right. by exists req.
Qed.

Lemma compare_on_shaped_documents_witness :
  ∃ report code,
    compare (λ _, "") (λ _, "") release_load "baseline.json" "current.json"
      = Ok (report, code) ∧
    (code = 0 ∨ code = 1).
Proof.
  apply (compare_on_shaped_documents (λ _, "") (λ _, "")
           "baseline.json" "current.json" release_load
           (release_doc "List boards" ["cursor"] ["id"])
           (release_doc "List all boards" ["limit"; "cursor"] ["name"; "id"])).
  - reflexivity.
  - reflexivity.
  - apply release_doc_shape.
  - apply release_doc_shape.
Defined.

(** * The grouping of new endpoints in the report *)

Lemma categorize_endpoint_label method path :
  categorize_endpoint method path ∈ ["standard"; "experimental"; "enterprise"].
Proof.
  unfold categorize_endpoint. rewrite !elem_of_cons.
  destruct (contains "/v2-experimental/" path); [tauto|].
  destruct (contains "/orgs/" path || contains "enterprise" (lower path)); tauto.
Qed.

(** No added endpoint is lost by the grouping: the row of an endpoint is
    in the table of the category the categorizer gives it, and that
    category is one of the three whose tables the report prints. *)
Theorem added_endpoint_row_printed (py_str : json → string)
    (rows : list (string * (string * string * endpoint)))
    (method path : string) (info : endpoint) :
  (categorize_endpoint method path, (method, path, info)) ∈ rows →
  table_row py_str method path info ∈
    category_section py_str rows (categorize_endpoint method path) ∧
  table_row py_str method path info ∈
    (["standard"; "experimental"; "enterprise"] ≫= category_section py_str rows).
Proof.
  intros Hin.
  assert (table_row py_str method path info ∈
            category_section py_str rows (categorize_endpoint method path)) as Hrow.
  { unfold category_section.
    assert ((categorize_endpoint method path, (method, path, info)) ∈
              filter (λ r, r.1 = categorize_endpoint method path) rows) as Hf
      by (by apply list_elem_of_filter).
    destruct (filter _ rows) as [|r group] eqn:Hgroup; [by apply elem_of_nil in Hf|].
    rewrite !elem_of_app. right. right. left.
    apply list_elem_of_fmap. by exists (categorize_endpoint method path, (method, path, info)). }
  split; [done|]. apply list_elem_of_bind.
  exists (categorize_endpoint method path). split; [done|apply categorize_endpoint_label].
Qed.

Lemma added_endpoint_row_printed_witness :
  table_row (λ _, "") "POST" "/v2-experimental/widgets" (boards_info "") ∈
    category_section (λ _, "")
      [("experimental", ("POST", "/v2-experimental/widgets", boards_info ""))]
      (categorize_endpoint "POST" "/v2-experimental/widgets") ∧
  table_row (λ _, "") "POST" "/v2-experimental/widgets" (boards_info "") ∈
    (["standard"; "experimental"; "enterprise"] ≫=
       category_section (λ _, "")
         [("experimental", ("POST", "/v2-experimental/widgets", boards_info ""))]).
Proof.
  apply (added_endpoint_row_printed (λ _, "")
           [("experimental", ("POST", "/v2-experimental/widgets", boards_info ""))]).
  by left.
Defined.

(** * What a run prints *)

(** A run that ends in a traceback has printed nothing of its own, on
    either stream; a run that printed the usage hint has printed no report
    and exits with status 1; and at most one report is ever printed. *)
Theorem main_output_streams (py_str : json → string) (describe : change → string)
    (argv : list string) (load : string → result json) :
  (∀ e, status (main py_str describe argv load) = Uncaught e →
     stdout (main py_str describe argv load) = [] ∧
     stderr (main py_str describe argv load) = []) ∧
  (stderr (main py_str describe argv load) ≠ [] →
     length argv ≠ 3%nat ∧
     stdout (main py_str describe argv load) = [] ∧
     status (main py_str describe argv load) = Exited 1) ∧
  (length (stdout (main py_str describe argv load)) ≤ 1)%nat.
Proof.
  destruct argv as [|prog [|bpath [|cpath [|extra argv]]]]; simpl;
    try (split_and!; [done|by intros _; split_and!|lia]).
  - split_and!; [done|done|lia].
  - destruct (compare py_str describe load bpath cpath) as [[report code]|e'];
      simpl; split_and!; done || lia.
Qed.

(** * The descriptions of one changed endpoint *)

(** For a key of both mappings, the summary description is present
    exactly when the two summaries are unequal, and then carries the old
    and the new summary; likewise for the deprecated flag and the tags.
    The descriptions come in the order summary, deprecated, tags, new
    parameters, removed parameters, at most one of each. *)
Theorem field_descriptions (old new : endpoint) (diffs : list change) :
  endpoint_diffs old new = Ok diffs →
  (∀ o n, SummaryChanged o n ∈ diffs ↔
     py_ne (summary old) (summary new) = true ∧ o = summary old ∧ n = summary new) ∧
  (∀ o n, DeprecatedChanged o n ∈ diffs ↔
     py_ne (deprecated old) (deprecated new) = true ∧
     o = deprecated old ∧ n = deprecated new) ∧
  (∀ o n, TagsChanged o n ∈ diffs ↔
     py_ne (tags old) (tags new) = true ∧ o = tags old ∧ n = tags new) ∧
  (∃ added removed,
     diffs `sublist_of`
       [SummaryChanged (summary old) (summary new);
        DeprecatedChanged (deprecated old) (deprecated new);
        TagsChanged (tags old) (tags new);
        NewParams added; RemovedParams removed]).
Proof.
  intros (so & sn & da & dr & Hso & Hsn & Ha & Hr & ->)%endpoint_diffs_Ok.
  pose proof (report_names_Ok _ _ _ Ha) as [_ Hak].
  pose proof (report_names_Ok _ _ _ Hr) as [_ Hrk].
  assert (∀ d, d ∈ da ++ dr → ∃ l, d = NewParams l ∨ d = RemovedParams l) as Hparams.
  { intros d [Hd|Hd]%elem_of_app; [apply Hak in Hd as [l ->]|apply Hrk in Hd as [l ->]];
      eauto. }
  split_and!.
  - intros o n. rewrite !elem_of_app, <- elem_of_app.
    destruct (py_ne (summary old) (summary new)),
      (py_ne (deprecated old) (deprecated new)), (py_ne (tags old) (tags new));
      rewrite ?list_elem_of_singleton, ?elem_of_nil; split;
      try (by intros (? & -> & ->); left);
      intros H; decompose [or and] H; try done; simplify_eq; try done;
      match goal with H : _ ∈ da ++ dr |- _ => by apply Hparams in H as [? [[=]|[=]]] end.
  - intros o n. rewrite !elem_of_app, <- elem_of_app.
    destruct (py_ne (summary old) (summary new)),
      (py_ne (deprecated old) (deprecated new)), (py_ne (tags old) (tags new));
      rewrite ?list_elem_of_singleton, ?elem_of_nil; split;
      try (by intros (? & -> & ->); tauto);
      intros H; decompose [or and] H; try done; simplify_eq; try done;
      match goal with H : _ ∈ da ++ dr |- _ => by apply Hparams in H as [? [[=]|[=]]] end.
  - intros o n. rewrite !elem_of_app, <- elem_of_app.
    destruct (py_ne (summary old) (summary new)),
      (py_ne (deprecated old) (deprecated new)), (py_ne (tags old) (tags new));
      rewrite ?list_elem_of_singleton, ?elem_of_nil; split;
      try (by intros (? & -> & ->); tauto);
      intros H; decompose [or and] H; try done; simplify_eq; try done;
      match goal with H : _ ∈ da ++ dr |- _ => by apply Hparams in H as [? [[=]|[=]]] end.
  - assert (∃ added, da `sublist_of` [NewParams added]) as [added Hda].
    { unfold report_names in Ha. destruct (decide _).
      - injection Ha as <-. exists []. apply sublist_nil_l.
      - inv_bind Ha. injection Ha as <-. by exists a. }
    assert (∃ removed, dr `sublist_of` [RemovedParams removed]) as [removed Hdr].
    { unfold report_names in Hr. destruct (decide _).
      - injection Hr as <-. exists []. apply sublist_nil_l.
      - inv_bind Hr. injection Hr as <-. by exists a. }
    exists added, removed.
    apply (sublist_app _ [_]); [destruct (py_ne _ _); by repeat constructor|].
    apply (sublist_app _ [_]); [destruct (py_ne _ _); by repeat constructor|].
    apply (sublist_app _ [_]); [destruct (py_ne _ _); by repeat constructor|].
    by apply (sublist_app _ [_]).
Qed.

Lemma field_descriptions_witness :
  (∀ o n, SummaryChanged o n ∈
            [SummaryChanged (JStr "List boards") (JStr "List all boards")] ↔
     py_ne (summary (boards_info "List boards"))
           (summary (boards_info "List all boards")) = true ∧
     o = summary (boards_info "List boards") ∧
     n = summary (boards_info "List all boards")) ∧
  (∀ o n, DeprecatedChanged o n ∈
            [SummaryChanged (JStr "List boards") (JStr "List all boards")] ↔
     py_ne (deprecated (boards_info "List boards"))
           (deprecated (boards_info "List all boards")) = true ∧
     o = deprecated (boards_info "List boards") ∧
     n = deprecated (boards_info "List all boards")) ∧
  (∀ o n, TagsChanged o n ∈
            [SummaryChanged (JStr "List boards") (JStr "List all boards")] ↔
     py_ne (tags (boards_info "List boards"))
           (tags (boards_info "List all boards")) = true ∧
     o = tags (boards_info "List boards") ∧ n = tags (boards_info "List all boards")) ∧
  (∃ added removed,
     [SummaryChanged (JStr "List boards") (JStr "List all boards")] `sublist_of`
       [SummaryChanged (summary (boards_info "List boards"))
                       (summary (boards_info "List all boards"));
        DeprecatedChanged (deprecated (boards_info "List boards"))
                          (deprecated (boards_info "List all boards"));
        TagsChanged (tags (boards_info "List boards"))
                    (tags (boards_info "List all boards"));
        NewParams added; RemovedParams removed]).
Proof.
  apply (field_descriptions (boards_info "List boards") (boards_info "List all boards")).
  vm_refl.
Defined.
